(** * github-user-activity-cli: a shallow embedding of [main.go]

    The program fetches a user's public events from the GitHub API,
    renders the event types it knows as one line each and prints the
    first [n] of them, optionally restricted to one event type.

    Go strings are byte strings: they are modelled by [string], one
    [ascii] per byte, so that a literal such as ["→"] is the three bytes
    of its UTF-8 encoding, as in the Go source file.  Go's [int] is taken
    to be 64 bits wide (amd64, arm64). *)

From Stdlib Require Import ZArith Strings.String Strings.Ascii Numbers.DecimalString
  Numbers.DecimalPos.
From stdpp Require Import gmap strings list fin_maps.

Open Scope string_scope.
Open Scope Z_scope.

(** ** Machine integers *)

Definition wrap64 (z : Z) : Z := (z + 2 ^ 63) mod 2 ^ 64 - 2 ^ 63.

Definition int64_min : Z := - 2 ^ 63.
Definition int64_max : Z := 2 ^ 63 - 1.

Definition in_int64 (z : Z) : Prop := int64_min <= z <= int64_max.

(** ** Bytes of a string *)

Definition byte_of (c : ascii) : Z := Z.of_N (N_of_ascii c).
Definition char_of (b : Z) : ascii := ascii_of_N (Z.to_N b).

Definition bytes (s : string) : list Z := byte_of <$> list_ascii_of_string s.
Definition of_bytes (l : list Z) : string := string_of_list_ascii (char_of <$> l).

(** [s[i:]] and [s[:i]] for [0 <= i <= len(s)]. *)
Fixpoint string_drop (n : nat) (s : string) : string :=
  match n, s with
  | O, _ => s
  | S _, EmptyString => EmptyString
  | S n', String _ s' => string_drop n' s'
  end.

Fixpoint string_take (n : nat) (s : string) : string :=
  match n, s with
  | O, _ => EmptyString
  | S _, EmptyString => EmptyString
  | S n', String c s' => String c (string_take n' s')
  end.

(** ** Package unicode/utf8 *)

Module utf8.

Definition RuneError : Z := 0xFFFD.
Definition RuneSelf : Z := 0x80.
Definition MaxRune : Z := 0x10FFFF.
Definition UTFMax : nat := 4.

Definition in_range (lo hi b : Z) : bool := (lo <=? b) && (b <=? hi).
Definition is_cont (b : Z) : bool := in_range 0x80 0xBF b.

(** The entry of the [first] table for a leading byte: the length of the
    sequence and the range accepted for its second byte; [None] for
    [xx], a byte that starts no sequence. *)
Definition first (b0 : Z) : option (nat * (Z * Z)) :=
  if in_range 0xC2 0xDF b0 then Some (2%nat, (0x80, 0xBF))
  else if b0 =? 0xE0 then Some (3%nat, (0xA0, 0xBF))
  else if in_range 0xE1 0xEC b0 then Some (3%nat, (0x80, 0xBF))
  else if b0 =? 0xED then Some (3%nat, (0x80, 0x9F))
  else if in_range 0xEE 0xEF b0 then Some (3%nat, (0x80, 0xBF))
  else if b0 =? 0xF0 then Some (4%nat, (0x90, 0xBF))
  else if in_range 0xF1 0xF3 b0 then Some (4%nat, (0x80, 0xBF))
  else if b0 =? 0xF4 then Some (4%nat, (0x80, 0x8F))
  else None.

(** [DecodeRuneInString]: the first rune of the byte sequence and its
    width; an invalid or truncated sequence gives [(RuneError, 1)] and
    the empty string [(RuneError, 0)]. *)
Definition DecodeRune (s : list Z) : Z * nat :=
  match s with
  | [] => (RuneError, 0%nat)
  | b0 :: t =>
    if b0 <? RuneSelf then (b0, 1%nat)
    else match first b0 with
    | None => (RuneError, 1%nat)
    | Some (sz, (lo, hi)) =>
      if (length s <? sz)%nat then (RuneError, 1%nat)
      else match sz, t with
      | 2%nat, b1 :: _ =>
        if in_range lo hi b1
        then (Z.lor (Z.shiftl (Z.land b0 0x1F) 6) (Z.land b1 0x3F), 2%nat)
        else (RuneError, 1%nat)
      | 3%nat, b1 :: b2 :: _ =>
        if in_range lo hi b1 && is_cont b2
        then (Z.lor (Z.lor (Z.shiftl (Z.land b0 0x0F) 12)
                           (Z.shiftl (Z.land b1 0x3F) 6))
                    (Z.land b2 0x3F), 3%nat)
        else (RuneError, 1%nat)
      | 4%nat, b1 :: b2 :: b3 :: _ =>
        if in_range lo hi b1 && is_cont b2 && is_cont b3
        then (Z.lor (Z.lor (Z.lor (Z.shiftl (Z.land b0 0x07) 18)
                                  (Z.shiftl (Z.land b1 0x3F) 12))
                           (Z.shiftl (Z.land b2 0x3F) 6))
                    (Z.land b3 0x3F), 4%nat)
        else (RuneError, 1%nat)
      | _, _ => (RuneError, 1%nat)
      end
    end
  end.

(** [for _, c := range s]: the runes of [s] in order, every byte that is
    not part of a valid sequence read as one [RuneError]. *)
Fixpoint runes (s : list Z) : list Z :=
  match s with
  | [] => []
  | _ :: t1 =>
    let '(r, size) := DecodeRune s in
    r :: match size, t1 with
         | 2%nat, _ :: t2 => runes t2
         | 3%nat, _ :: _ :: t3 => runes t3
         | 4%nat, _ :: _ :: _ :: t4 => runes t4
         | _, _ => runes t1
         end
  end.

(** [AppendRune]: the UTF-8 encoding of a rune; a surrogate or a value
    outside [0, MaxRune] is encoded as [RuneError]. *)
Definition EncodeRune (r : Z) : list Z :=
  if in_range 0 0x7F r then [r]
  else if in_range 0x80 0x7FF r then
    [Z.lor 0xC0 (Z.shiftr r 6); Z.lor 0x80 (Z.land r 0x3F)]
  else if in_range 0x800 0xFFFF r && negb (in_range 0xD800 0xDFFF r) then
    [Z.lor 0xE0 (Z.shiftr r 12); Z.lor 0x80 (Z.land (Z.shiftr r 6) 0x3F);
     Z.lor 0x80 (Z.land r 0x3F)]
  else if in_range 0x10000 MaxRune r then
    [Z.lor 0xF0 (Z.shiftr r 18); Z.lor 0x80 (Z.land (Z.shiftr r 12) 0x3F);
     Z.lor 0x80 (Z.land (Z.shiftr r 6) 0x3F); Z.lor 0x80 (Z.land r 0x3F)]
  else [0xEF; 0xBF; 0xBD].

(** [RuneStart]: the byte is not a continuation byte. *)
Definition RuneStart (b : Z) : bool := negb (Z.land b 0xC0 =? 0x80).

End utf8.

(** ** Package unicode *)

Module unicode.

Definition MaxASCII : Z := 0x7F.
Definition MaxLatin1 : Z := 0xFF.

Inductive Case := UpperCase | LowerCase.

(** [IsSpace]: the White_Space property, with its Latin-1 fast path. *)
Definition IsSpace (r : Z) : bool :=
  if utf8.in_range 0 MaxLatin1 r then
    (r =? 9) || (r =? 10) || (r =? 11) || (r =? 12) || (r =? 13)
    || (r =? 32) || (r =? 0x85) || (r =? 0xA0)
  else
    (r =? 0x1680) || utf8.in_range 0x2000 0x200A r
    || utf8.in_range 0x2028 0x2029 r || (r =? 0x202F) || (r =? 0x205F)
    || (r =? 0x3000).

End unicode.

(** ** Package strings: trimming *)

Module strings_trim.

Definition asciiSpace (c : Z) : bool :=
  (c =? 9) || (c =? 10) || (c =? 11) || (c =? 12) || (c =? 13) || (c =? 32).

(** [s[lo:hi]] on byte lists. *)
Definition slice (s : list Z) (lo hi : nat) : list Z := take (hi - lo) (drop lo s).

(** [utf8.DecodeLastRuneInString]'s search for the start of the last
    rune: from [start] down to [lim], stopping at the first byte that can
    start a rune.  At most [utf8.UTFMax] steps are ever taken. *)
Fixpoint scan_start (fuel : nat) (s : list Z) (start lim : Z) : Z :=
  match fuel with
  | O => start
  | S fuel' =>
    if start <? lim then start
    else match s !! Z.to_nat start with
         | Some b => if utf8.RuneStart b then start
                     else scan_start fuel' s (start - 1) lim
         | None => start
         end
  end.

Definition DecodeLastRune (s : list Z) : Z * nat :=
  let end_ := Z.of_nat (length s) in
  match last s with
  | None => (utf8.RuneError, 0%nat)
  | Some b =>
    if b <? utf8.RuneSelf then (b, 1%nat)
    else
      let lim := Z.max 0 (end_ - Z.of_nat utf8.UTFMax) in
      let start := Z.max 0 (scan_start utf8.UTFMax s (end_ - 2) lim) in
      let '(r, size) := utf8.DecodeRune (drop (Z.to_nat start) s) in
      if start + Z.of_nat size =? end_ then (r, size) else (utf8.RuneError, 1%nat)
  end.

(** [indexFunc]: the byte index of the first rune [r] with
    [f r = truth], or [-1]; [i] is the index of the head of [s]. *)
Fixpoint indexFunc_from (f : Z -> bool) (truth : bool) (s : list Z) (i : Z) : Z :=
  match s with
  | [] => -1
  | _ :: t1 =>
    let '(r, size) := utf8.DecodeRune s in
    if Bool.eqb (f r) truth then i
    else match size, t1 with
         | 2%nat, _ :: t2 => indexFunc_from f truth t2 (i + 2)
         | 3%nat, _ :: _ :: t3 => indexFunc_from f truth t3 (i + 3)
         | 4%nat, _ :: _ :: _ :: t4 => indexFunc_from f truth t4 (i + 4)
         | _, _ => indexFunc_from f truth t1 (i + 1)
         end
  end.

Definition indexFunc (s : list Z) (f : Z -> bool) (truth : bool) : Z :=
  indexFunc_from f truth s 0.

(** [lastIndexFunc]: the byte index of the last such rune, or [-1].  Each
    turn of the loop lowers [i] by the width of a rune, at least one, so
    [fuel = i] turns are enough. *)
Fixpoint lastIndexFunc_from (fuel : nat) (s : list Z) (f : Z -> bool)
    (truth : bool) (i : nat) : Z :=
  match fuel with
  | O => -1
  | S fuel' =>
    if (i =? 0)%nat then -1
    else
      let '(r, size) := DecodeLastRune (take i s) in
      let i' := (i - size)%nat in
      if Bool.eqb (f r) truth then Z.of_nat i'
      else lastIndexFunc_from fuel' s f truth i'
  end.

Definition lastIndexFunc (s : list Z) (f : Z -> bool) (truth : bool) : Z :=
  lastIndexFunc_from (length s) s f truth (length s).

Definition TrimLeftFunc (s : list Z) (f : Z -> bool) : list Z :=
  let i := indexFunc s f false in
  if i =? -1 then [] else drop (Z.to_nat i) s.

Definition TrimRightFunc (s : list Z) (f : Z -> bool) : list Z :=
  let i := lastIndexFunc s f false in
  let i' :=
    match (if 0 <=? i then s !! Z.to_nat i else None) with
    | Some b =>
      if utf8.RuneSelf <=? b
      then i + Z.of_nat (snd (utf8.DecodeRune (drop (Z.to_nat i) s)))
      else i + 1
    | None => i + 1
    end in
  take (Z.to_nat i') s.

Definition TrimFunc (s : list Z) (f : Z -> bool) : list Z :=
  TrimRightFunc (TrimLeftFunc s f) f.

(** The two ASCII loops of [TrimSpace] either stop at an index or meet a
    byte [>= utf8.RuneSelf] there. *)
Inductive scan := Stop (i : nat) | NonASCII (i : nat).

Fixpoint scan_left (s : list Z) (start : nat) : scan :=
  match s with
  | [] => Stop start
  | c :: t =>
    if utf8.RuneSelf <=? c then NonASCII start
    else if asciiSpace c then scan_left t (S start)
    else Stop start
  end.

Fixpoint scan_right (s : list Z) (start stop : nat) : scan :=
  match stop with
  | O => Stop stop
  | S k =>
    if (stop <=? start)%nat then Stop stop
    else match s !! k with
         | Some c =>
           if utf8.RuneSelf <=? c then NonASCII stop
           else if asciiSpace c then scan_right s start k
           else Stop stop
         | None => Stop stop
         end
  end.

Definition TrimSpace_bytes (s : list Z) : list Z :=
  match scan_left s 0 with
  | NonASCII start => TrimFunc (drop start s) unicode.IsSpace
  | Stop start =>
    match scan_right s start (length s) with
    | NonASCII stop => TrimRightFunc (slice s start stop) unicode.IsSpace
    | Stop stop => slice s start stop
    end
  end.

End strings_trim.

(** [strings.TrimSpace] *)
Definition strings_TrimSpace (s : string) : string :=
  of_bytes (strings_trim.TrimSpace_bytes (bytes s)).

(** ** Package strconv *)

Inductive NumError := ErrSyntax | ErrRange.

Definition maxUint64 : Z := 2 ^ 64 - 1.

(** The digit loop of [ParseUint(s, 10, 64)]. *)
Fixpoint ParseUint_loop (s : list Z) (n : Z) : Z * option NumError :=
  match s with
  | [] => (n, None)
  | c :: t =>
    if utf8.in_range 48 57 c then
      if n >=? maxUint64 / 10 + 1 then (maxUint64, Some ErrRange)
      else
        let n1 := n * 10 + (c - 48) in
        if n1 >? maxUint64 then (maxUint64, Some ErrRange)
        else ParseUint_loop t n1
    else (0, Some ErrSyntax)
  end.

Definition strconv_ParseUint (s : list Z) : Z * option NumError :=
  match s with
  | [] => (0, Some ErrSyntax)
  | _ => ParseUint_loop s 0
  end.

(** [strconv.ParseInt(s, 10, 64)] *)
Definition strconv_ParseInt (s : string) : Z * option NumError :=
  match bytes s with
  | [] => (0, Some ErrSyntax)
  | c :: t =>
    let neg := c =? 45 in
    let digits := if (c =? 43) || (c =? 45) then t else c :: t in
    match strconv_ParseUint digits with
    | (_, Some ErrSyntax) => (0, Some ErrSyntax)
    | (un, _) =>
      let cutoff := 2 ^ 63 in
      if negb neg && (un >=? cutoff) then (cutoff - 1, Some ErrRange)
      else if neg && (un >? cutoff) then (- cutoff, Some ErrRange)
      else (if neg then wrap64 (- wrap64 un) else wrap64 un, None)
    end
  end.

(** The verb [%d] of package fmt on an [int]. *)
Definition fmt_d (z : Z) : string := NilZero.string_of_int (Z.to_int z).

(** ** Package time *)

Record Time := mkTime { wall : Z; ext : Z }.

Definition unixToInternal : Z := (1969 * 365 + 1969 / 4 - 1969 / 100 + 1969 / 400) * 86400.

(** [time.Time{}] *)
Definition Time_zero : Time := mkTime 0 0.

(** [time.Unix(sec, 0)] *)
Definition time_Unix (sec : Z) : Time := mkTime 0 (wrap64 (sec + unixToInternal)).

(** [t.IsZero()], for a time without monotonic clock reading. *)
Definition IsZero (t : Time) : bool := (ext t =? 0) && (Z.land (wall t) (2 ^ 30 - 1) =? 0).

(** ** Package encoding/json

    A [json.RawMessage] is kept in parsed form: [Some v] for bytes that
    are the JSON text [v], [None] for bytes that are no JSON text, among
    them the empty message of an [Event] built without a payload.
    Members of an object are kept in document order, duplicates
    included; a number keeps its literal. *)

#[warnings="-register-all"] Inductive json :=
  | JNull
  | JBool (b : bool)
  | JNumber (lit : string)
  | JString (s : string)
  | JArray (elems : list json)
  | JObject (members : list (string * json)).

Definition RawMessage := option json.

Module json_decode.

(** [foldName] on a key that is compared with an ASCII field name: ASCII
    letters are upper-cased; U+017F (long s) and U+212A (Kelvin sign)
    are the only runes beyond ASCII whose fold orbit has an ASCII
    letter; any other byte is kept and matches no ASCII name. *)
Fixpoint foldName (s : list Z) : list Z :=
  match s with
  | [] => []
  | 0xC5 :: 0xBF :: t => 83 :: foldName t
  | 0xE2 :: 0x84 :: 0xAA :: t => 75 :: foldName t
  | c :: t => (if utf8.in_range 97 122 c then c - 32 else c) :: foldName t
  end.

Definition name_matches (key name : string) : bool :=
  String.eqb key name || bool_decide (foldName (bytes key) = foldName (bytes name)).

(** A struct field: its JSON name and how a value is stored into it;
    [None] is an [UnmarshalTypeError]. *)
Definition field (T : Type) : Type := string * (json -> T -> option T).

Fixpoint find_field {T} (key : string) (fields : list (field T)) : option (json -> T -> option T) :=
  match fields with
  | [] => None
  | (name, store) :: rest =>
    if name_matches key name then Some store else find_field key rest
  end.

(** Decoding into a struct: [null] leaves it as it is, an object stores
    its members in order, unknown keys skipped, anything else is a type
    error.  The decoder goes on after a type error and reports the first
    one at the end; as [formatEvent] only tests [err != nil], the result
    is [None] as soon as one occurs. *)
Definition into_struct {T} (fields : list (field T)) (v : json) (p : T) : option T :=
  match v with
  | JNull => Some p
  | JObject members =>
    foldl (fun acc kv =>
             p' ← acc;
             match find_field kv.1 fields with
             | Some store => store kv.2 p'
             | None => Some p'
             end) (Some p) members
  | _ => None
  end.

(** Decoding into an [int]: the literal goes through [strconv.ParseInt]. *)
Definition into_int (v : json) (cur : Z) : option Z :=
  match v with
  | JNull => Some cur
  | JNumber lit =>
    match strconv_ParseInt lit with
    | (n, None) => Some n
    | (_, Some _) => None
    end
  | _ => None
  end.

Definition into_string (v : json) (cur : string) : option string :=
  match v with
  | JNull => Some cur
  | JString s => Some s
  | _ => None
  end.

(** [json.Unmarshal(data, &p)] for a struct [p] with the given fields. *)
Definition Unmarshal {T} (fields : list (field T)) (data : RawMessage) (p : T) : option T :=
  match data with
  | None => None
  | Some v => into_struct fields v p
  end.

End json_decode.

(** ** The data model of [main.go] *)

Record Repo := mkRepo { Name : string }.

Record Event := mkEvent {
  Type_ : string;
  CreatedAt : Time;
  Repo_ : Repo;
  Payload : RawMessage
}.

Record PushPayload := mkPush { Size : Z }.

Record Numbered := mkNumbered { Number : Z; Title : string }.

Record IssuesPayload := mkIssues { Issues_Action : string; Issue : Numbered }.

Record PRPayload := mkPR { PR_Action : string; PullRequest : Numbered }.

Record WatchPayload := mkWatch { Watch_Action : string }.

Record Forkee := mkForkee { FullName : string }.

Record ForkPayload := mkFork { Forkee_ : Forkee }.

Import json_decode.

Definition Numbered_fields : list (field Numbered) :=
  [ ("number", fun v p => n ← into_int v (Number p); Some (mkNumbered n (Title p)));
    ("title", fun v p => t ← into_string v (Title p); Some (mkNumbered (Number p) t)) ].

Definition PushPayload_fields : list (field PushPayload) :=
  [ ("size", fun v p => n ← into_int v (Size p); Some (mkPush n)) ].

Definition IssuesPayload_fields : list (field IssuesPayload) :=
  [ ("action", fun v p => a ← into_string v (Issues_Action p); Some (mkIssues a (Issue p)));
    ("issue", fun v p => i ← into_struct Numbered_fields v (Issue p);
                         Some (mkIssues (Issues_Action p) i)) ].

Definition PRPayload_fields : list (field PRPayload) :=
  [ ("action", fun v p => a ← into_string v (PR_Action p); Some (mkPR a (PullRequest p)));
    ("pull_request", fun v p => i ← into_struct Numbered_fields v (PullRequest p);
                                Some (mkPR (PR_Action p) i)) ].

Definition WatchPayload_fields : list (field WatchPayload) :=
  [ ("action", fun v p => a ← into_string v (Watch_Action p); Some (mkWatch a)) ].

Definition Forkee_fields : list (field Forkee) :=
  [ ("full_name", fun v p => n ← into_string v (FullName p); Some (mkForkee n)) ].

Definition ForkPayload_fields : list (field ForkPayload) :=
  [ ("forkee", fun v p => f ← into_struct Forkee_fields v (Forkee_ p); Some (mkFork f)) ].

(** The zero values [var p T] starts from. *)
Definition Numbered_zero : Numbered := mkNumbered 0 "".
Definition PushPayload_zero : PushPayload := mkPush 0.
Definition IssuesPayload_zero : IssuesPayload := mkIssues "" Numbered_zero.
Definition PRPayload_zero : PRPayload := mkPR "" Numbered_zero.
Definition WatchPayload_zero : WatchPayload := mkWatch "".
Definition ForkPayload_zero : ForkPayload := mkFork (mkForkee "").

(** ** The program

    What the program takes from its environment is a variable of the
    section: the tables of Unicode case pairs beyond ASCII, the quoting
    of the verb [%q], the local time zone, the HTTP transport and the
    decoder of the event array. *)

Section Program.

(** [unicode.To(_case, r)] *)
Variable unicode_To : unicode.Case -> Z -> Z.

Definition unicode_ToUpper (r : Z) : Z :=
  if r <=? unicode.MaxASCII then
    if utf8.in_range 97 122 r then r - 32 else r
  else unicode_To unicode.UpperCase r.

Definition unicode_ToLower (r : Z) : Z :=
  if r <=? unicode.MaxASCII then
    if utf8.in_range 65 90 r then r + 32 else r
  else unicode_To unicode.LowerCase r.

(** [strings.Map]: every rune of [s] is replaced by its image, a
    negative image dropped; a byte of [s] outside any valid sequence is
    read as [utf8.RuneError]. *)
Definition encode_mapped (mapping : Z -> Z) (r : Z) : list Z :=
  let r' := mapping r in
  if 0 <=? r' then utf8.EncodeRune r' else [].

Definition strings_Map (mapping : Z -> Z) (s : list Z) : list Z :=
  r ← utf8.runes s; encode_mapped mapping r.

Definition isASCII (s : list Z) : bool := forallb (fun c => c <? utf8.RuneSelf) s.

Definition upper_byte (c : Z) : Z := if utf8.in_range 97 122 c then c - 32 else c.
Definition lower_byte (c : Z) : Z := if utf8.in_range 65 90 c then c + 32 else c.

(** [strings.ToUpper] and [strings.ToLower], with their loops over the
    bytes of an ASCII string. *)
Definition strings_ToUpper (s : string) : string :=
  let b := bytes s in
  of_bytes (if isASCII b then upper_byte <$> b else strings_Map unicode_ToUpper b).

Definition strings_ToLower (s : string) : string :=
  let b := bytes s in
  of_bytes (if isASCII b then lower_byte <$> b else strings_Map unicode_ToLower b).

Definition titleCase (s : string) : string :=
  if String.eqb s "" then s
  else strings_ToUpper (string_take 1 s) +:+ strings_ToLower (string_drop 1 s).

Definition formatEvent (ev : Event) : string * bool :=
  let repo := Name (Repo_ ev) in
  if String.eqb (Type_ ev) "PushEvent" then
    match Unmarshal PushPayload_fields (Payload ev) PushPayload_zero with
    | None => ("", false)
    | Some p => ("Pushed " +:+ fmt_d (Size p) +:+ " commit(s) to " +:+ repo, true)
    end
  else if String.eqb (Type_ ev) "IssuesEvent" then
    match Unmarshal IssuesPayload_fields (Payload ev) IssuesPayload_zero with
    | None => ("", false)
    | Some p =>
      let action := strings_ToLower (Issues_Action p) in
      (titleCase action +:+ " an issue #" +:+ fmt_d (Number (Issue p)) +:+ " “"
         +:+ Title (Issue p) +:+ "” in " +:+ repo, true)
    end
  else if String.eqb (Type_ ev) "PullRequestEvent" then
    match Unmarshal PRPayload_fields (Payload ev) PRPayload_zero with
    | None => ("", false)
    | Some p =>
      let action := strings_ToLower (PR_Action p) in
      (titleCase action +:+ " a pull request #" +:+ fmt_d (Number (PullRequest p))
         +:+ " “" +:+ Title (PullRequest p) +:+ "” in " +:+ repo, true)
    end
  else if String.eqb (Type_ ev) "WatchEvent" then
    match Unmarshal WatchPayload_fields (Payload ev) WatchPayload_zero with
    | None => ("", false)
    | Some p =>
      if String.eqb (strings_ToLower (Watch_Action p)) "started"
      then ("Starred " +:+ repo, true)
      else ("Watch event on " +:+ repo, true)
    end
  else if String.eqb (Type_ ev) "ForkEvent" then
    match Unmarshal ForkPayload_fields (Payload ev) ForkPayload_zero with
    | None => ("", false)
    | Some p =>
      let target :=
        if negb (String.eqb (FullName (Forkee_ p)) "") then FullName (Forkee_ p)
        else repo in
      ("Forked " +:+ Name (Repo_ ev) +:+ " → " +:+ target, true)
    end
  else if String.eqb (Type_ ev) "CreateEvent" then
    ("Created something in " +:+ repo, true)
  else if String.eqb (Type_ ev) "DeleteEvent" then
    ("Deleted something in " +:+ repo, true)
  else if String.eqb (Type_ ev) "ReleaseEvent" then
    ("Published or edited a release in " +:+ repo, true)
  else if String.eqb (Type_ ev) "PullRequestReviewCommentEvent" then
    ("Commented on a PR review in " +:+ repo, true)
  else if String.eqb (Type_ ev) "IssueCommentEvent" then
    ("Commented on an issue in " +:+ repo, true)
  else ("", false).

(** ** The HTTP response *)

(** [validHeaderFieldByte]: the token characters of RFC 7230. *)
Definition validHeaderFieldByte (c : Z) : bool :=
  utf8.in_range 48 57 c || utf8.in_range 65 90 c || utf8.in_range 97 122 c
  || bool_decide (c ∈ bytes "!#$%&'*+-.^_`|~").

Fixpoint canonical_bytes (upper : bool) (a : list Z) : list Z :=
  match a with
  | [] => []
  | c :: t =>
    let c' := if upper then upper_byte c else lower_byte c in
    c' :: canonical_bytes (c' =? 45) t
  end.

(** [textproto.CanonicalMIMEHeaderKey]: a key made of token characters
    gets an upper-case letter first and after each dash and lower-case
    letters elsewhere; any other key is returned as it is. *)
Definition CanonicalMIMEHeaderKey (s : string) : string :=
  if forallb validHeaderFieldByte (bytes s)
  then of_bytes (canonical_bytes true (bytes s))
  else s.

Record Response := mkResponse {
  StatusCode : Z;
  Status : string;
  Header : gmap string (list string);
  Body : string
}.

(** [h.Get(key)]: the first value stored under the canonical key. *)
Definition Header_Get (h : gmap string (list string)) (key : string) : string :=
  match h !! CanonicalMIMEHeaderKey key with
  | Some (v :: _) => v
  | _ => ""
  end.

Record Request := mkRequest {
  Method : string;
  URL : string;
  ReqHeader : gmap string (list string)
}.

Definition Header_Set (h : gmap string (list string)) (key value : string)
  : gmap string (list string) :=
  <[CanonicalMIMEHeaderKey key := [value]]> h.

(** ** fetchEvents *)

Definition eventsURL (username : string) : string :=
  "https://api.github.com/users/" +:+ username +:+ "/events".

Definition userAgent : string := "github-activity-cli/1.0".

(** [ts.Local().Format(time.RFC1123)]; the result depends on the local
    time zone. *)
Variable Local_Format_RFC1123 : Time -> string.

(** [http.NewRequest(http.MethodGet, url, nil)]: the error, if the URL
    does not parse. *)
Variable http_NewRequest_error : string -> option string.

(** [http.DefaultClient.Do(req)]: the error of the transport or the
    response, whose [Body] holds the bytes the body reader delivers. *)
Variable http_Do : Request -> string + Response.

(** [json.NewDecoder(resp.Body).Decode(&events)]: the error or the
    events. *)
Variable Decode_events : string -> string + list Event.

Definition parseUnix (s : string) : Time * option NumError :=
  match strconv_ParseInt s with
  | (sec, None) => (time_Unix sec, None)
  | (_, Some err) => (Time_zero, Some err)
  end.

Inductive Fetched :=
  | Events (events : list Event)
  | Failed (err : string).

Definition rate_limit_msg : string :=
  "rate limit exceeded; set GITHUB_TOKEN to increase limits".

(** [fetchEvents] from the point where the response has arrived. *)
Definition classify (resp : Response) : Fetched :=
  if StatusCode resp =? 404 then Failed "user not found"
  else
    let otherwise :=
      if (StatusCode resp <? 200) || (StatusCode resp >=? 300) then
        let body := string_take 512 (Body resp) in
        Failed ("github api error: " +:+ Status resp +:+ ": " +:+ strings_TrimSpace body)
      else
        match Decode_events (Body resp) with
        | inl err => Failed ("decode failed: " +:+ err)
        | inr events => Events events
        end in
    if StatusCode resp =? 403 then
      if String.eqb (Header_Get (Header resp) "X-RateLimit-Remaining") "0" then
        let reset := Header_Get (Header resp) "X-RateLimit-Reset" in
        let msg := rate_limit_msg in
        let msg :=
          if negb (String.eqb reset "") then
            let ts := fst (parseUnix reset) in
            if negb (IsZero ts)
            then msg +:+ " (resets at " +:+ Local_Format_RFC1123 ts +:+ ")"
            else msg
          else msg in
        Failed msg
      else otherwise
    else otherwise.

Definition fetchEvents (username : string) : Fetched :=
  let url := eventsURL username in
  match http_NewRequest_error url with
  | Some err => Failed err
  | None =>
    let req := mkRequest "GET" url (Header_Set ∅ "User-Agent" userAgent) in
    match http_Do req with
    | inl err => Failed ("request failed: " +:+ err)
    | inr resp => classify resp
    end
  end.

(** ** main *)

(** [strconv.Quote], the verb [%q]. *)
Variable strconv_Quote : string -> string.

(** What [flag.Usage] writes to the error stream. *)
Variable usage : list string.

(** The lines written to the two streams, one entry for each call of
    [Println], [Printf] or [Fprintln], and the exit code. *)
Record Outcome := mkOutcome {
  stdout : list string;
  stderr : list string;
  exit_code : Z
}.

Definition clamp (limit : Z) : Z :=
  let limit := if limit <? 1 then 1 else limit in
  if limit >? 100 then 100 else limit.

(** The loop over the events: the lines it prints and the final value
    of [count]. *)
Fixpoint selection_loop (eventType : string) (limit : Z) (events : list Event)
    (count : Z) : list string * Z :=
  match events with
  | [] => ([], count)
  | ev :: rest =>
    if negb (String.eqb eventType "") && negb (String.eqb (Type_ ev) eventType)
    then selection_loop eventType limit rest count
    else
      match formatEvent ev with
      | (_, false) => selection_loop eventType limit rest count
      | (line, true) =>
        let count' := wrap64 (count + 1) in
        if count' >=? limit then (["- " +:+ line], count')
        else
          let '(lines, final) := selection_loop eventType limit rest count' in
          (("- " +:+ line) :: lines, final)
      end
  end.

(** [main] once [flag.Parse] has returned, from the values of the flags
    [--type] and [--n] ([None] when the flag is not given) and the
    positional arguments.  The runs that end inside [flag.Parse] are
    those of [run] below. *)
Definition main (type_flag : option string) (n_flag : option Z) (args : list string)
  : Outcome :=
  let eventType := default "" type_flag in
  let limit := default 30 n_flag in
  match args with
  | [username] =>
    let limit := clamp limit in
    match fetchEvents username with
    | Failed err => mkOutcome [] ["Error: " +:+ err] 1
    | Events events =>
      if (length events =? 0)%nat then mkOutcome ["No recent public activity."] [] 0
      else
        let '(lines, count) := selection_loop eventType limit events 0 in
        let note :=
          if count =? 0 then
            if negb (String.eqb eventType "")
            then ["No events of type " +:+ strconv_Quote eventType +:+ " found."]
            else ["No printable events found."]
          else [] in
        mkOutcome (lines ++ note) [] 0
    end
  | _ => mkOutcome [] usage 2
  end.



(** ** Notions used in the statements *)

(** The event passes the filter of [--type] and [formatEvent] renders it. *)
Definition qualifies (eventType : string) (ev : Event) : bool :=
  (String.eqb eventType "" || String.eqb (Type_ ev) eventType) && (formatEvent ev).2.

(** The line printed for an event. *)
Definition render (ev : Event) : string := "- " +:+ (formatEvent ev).1.

(** The lines the loop prints, in the order it prints them. *)
Definition printed (eventType : string) (limit : Z) (events : list Event) : list string :=
  (selection_loop eventType limit events 0).1.

(** The ASCII quotation mark, byte 34. *)
Definition dquote : string := String (ascii_of_nat 34) "".

(** ** A sample environment

    No case pairs beyond ASCII, times shown as seconds of the Unix
    epoch, every URL accepted, one fixed response and one fixed feed. *)

Definition no_case_pairs : unicode.Case -> Z -> Z := fun _ r => r.
Definition epoch_seconds : Time -> string := fun t => fmt_d (ext t - unixToInternal).
Definition any_url : string -> option string := fun _ => None.
Definition respond (resp : Response) : Request -> string + Response := fun _ => inr resp.
Definition feed (events : list Event) : string -> string + list Event := fun _ => inr events.
Definition quote_plain : string -> string := fun s => dquote +:+ s +:+ dquote.

(** ** Sample events *)

Definition alice_event (type : string) (payload : RawMessage) : Event :=
  mkEvent type Time_zero (mkRepo "alice/repo") payload.

(** [{"action":"opened","issue":{"number":42,"title":"Bug"}}] *)
Definition issue_opened : Event :=
  alice_event "IssuesEvent"
    (Some (JObject [("action", JString "opened");
                    ("issue", JObject [("number", JNumber "42");
                                       ("title", JString "Bug")])])).

(** [{"forkee":{"full_name":"bob/repo-fork"}}] *)
Definition fork_named : Event :=
  alice_event "ForkEvent"
    (Some (JObject [("forkee", JObject [("full_name", JString "bob/repo-fork")])])).

(** [{}], [{"forkee":{}}] and [{"forkee":{"full_name":""}}] *)
Definition fork_no_forkee : Event := alice_event "ForkEvent" (Some (JObject [])).
Definition fork_no_name : Event :=
  alice_event "ForkEvent" (Some (JObject [("forkee", JObject [])])).
Definition fork_empty_name : Event :=
  alice_event "ForkEvent"
    (Some (JObject [("forkee", JObject [("full_name", JString "")])])).

(** The events of [main_test.go]. *)
Definition test_push : Event :=
  alice_event "PushEvent" (Some (JObject [("size", JNumber "3")])).

Definition test_pr : Event :=
  alice_event "PullRequestEvent"
    (Some (JObject [("action", JString "closed");
                    ("pull_request", JObject [("number", JNumber "7");
                                              ("title", JString "Feature")])])).

Definition test_watch : Event :=
  alice_event "WatchEvent" (Some (JObject [("action", JString "started")])).

(** [{"size":"three"}]: a string where the struct has an [int]. *)
Definition push_size_string : Event :=
  alice_event "PushEvent" (Some (JObject [("size", JString "three")])).

(** A feed of five events, one of them with a payload that does not
    decode. *)
Definition sample_feed : list Event :=
  [test_push; push_size_string; test_watch; issue_opened; fork_named].

(** [json.Unmarshal] of the payload into the struct of the event's type
    returns an error. *)
Definition malformed (ev : Event) : Prop :=
  (Type_ ev = "PushEvent"
   /\ Unmarshal PushPayload_fields (Payload ev) PushPayload_zero = None)
  \/ (Type_ ev = "IssuesEvent"
      /\ Unmarshal IssuesPayload_fields (Payload ev) IssuesPayload_zero = None)
  \/ (Type_ ev = "PullRequestEvent"
      /\ Unmarshal PRPayload_fields (Payload ev) PRPayload_zero = None)
  \/ (Type_ ev = "WatchEvent"
      /\ Unmarshal WatchPayload_fields (Payload ev) WatchPayload_zero = None)
  \/ (Type_ ev = "ForkEvent"
      /\ Unmarshal ForkPayload_fields (Payload ev) ForkPayload_zero = None).

(** The title-casing rule in the words of the specification: the first
    character in upper case, the remainder in lower case, the empty
    string as it is; a character is a rune of the string. *)
Definition titleCase_by_character (s : string) : string :=
  match utf8.runes (bytes s) with
  | [] => ""
  | first :: remainder =>
    of_bytes (encode_mapped unicode_ToUpper first
              ++ (r ← remainder; encode_mapped unicode_ToLower r))
  end.

(** Trimming in the words of the specification, for ASCII text: the
    white space before the first and after the last other byte is
    dropped. *)
Fixpoint drop_spaces (s : list Z) : list Z :=
  match s with
  | c :: t => if strings_trim.asciiSpace c then drop_spaces t else s
  | [] => []
  end.

Definition trim_ascii (s : list Z) : list Z :=
  reverse (drop_spaces (reverse (drop_spaces s))).

(** Trimming in the words of the specification, for any text.  White
    space is what Unicode gives the property White_Space: U+0009 to
    U+000D, U+0020, U+0085, U+00A0, U+1680, U+2000 to U+200A, U+2028,
    U+2029, U+202F, U+205F and U+3000, each written in UTF-8. *)
Definition white_space_encodings : list (list Z) :=
  [[0x09]; [0x0A]; [0x0B]; [0x0C]; [0x0D]; [0x20];
   [0xC2; 0x85]; [0xC2; 0xA0];
   [0xE1; 0x9A; 0x80];
   [0xE2; 0x80; 0x80]; [0xE2; 0x80; 0x81]; [0xE2; 0x80; 0x82]; [0xE2; 0x80; 0x83];
   [0xE2; 0x80; 0x84]; [0xE2; 0x80; 0x85]; [0xE2; 0x80; 0x86]; [0xE2; 0x80; 0x87];
   [0xE2; 0x80; 0x88]; [0xE2; 0x80; 0x89]; [0xE2; 0x80; 0x8A];
   [0xE2; 0x80; 0xA8]; [0xE2; 0x80; 0xA9]; [0xE2; 0x80; 0xAF];
   [0xE2; 0x81; 0x9F];
   [0xE3; 0x80; 0x80]].

(** A run of white space: white-space characters one after the other. *)
Inductive white_space : list Z -> Prop :=
  | white_space_nil : white_space []
  | white_space_app c rest :
      c ∈ white_space_encodings -> white_space rest -> white_space (c ++ rest).

Definition begins_with_space (t : list Z) : Prop :=
  exists c rest, c ∈ white_space_encodings /\ t = (c ++ rest)%list.

Definition ends_with_space (t : list Z) : Prop :=
  exists front c, c ∈ white_space_encodings /\ t = (front ++ c)%list.

(** [t] is [s] trimmed: [s] is [t] between two runs of white space, and
    [t] neither begins nor ends with a white-space character. *)
Definition trimmed_of (s t : list Z) : Prop :=
  exists lead trail,
    s = (lead ++ t ++ trail)%list
    /\ white_space lead /\ white_space trail
    /\ ~ begins_with_space t /\ ~ ends_with_space t.

(** A decimal integer of 64 bits in the words of the specification: an
    optional sign, one or more digits, a value that an [int64] holds. *)
Definition decimal_from (n : Z) (digits : list Z) : Z :=
  foldl (fun acc c => acc * 10 + (c - 48)) n digits.

Definition decimal (digits : list Z) : Z := decimal_from 0 digits.

Definition is_digit (c : Z) : Prop := 48 <= c <= 57.

Definition decimal_int64 (s : string) (n : Z) : Prop :=
  exists sign digits,
    bytes s = (sign ++ digits)%list
    /\ (sign = [] \/ sign = [43] \/ sign = [45])
    /\ digits <> [] /\ Forall is_digit digits
    /\ n = (if bool_decide (sign = [45]) then - decimal digits else decimal digits)
    /\ in_int64 n.

(** The second at which [time.Unix] gives the zero [Time]. *)
Definition zero_instant : Z := -62135596800.

(** The message of a rate-limited request carries a reset time. *)
Definition has_reset_annotation (msg : string) : Prop :=
  exists t, msg = rate_limit_msg +:+ " (resets at " +:+ t +:+ ")".

(** ** Sample responses *)

Definition rate_limited (reset : string) : Response :=
  mkResponse 403 "403 Forbidden"
    (<["X-Ratelimit-Remaining" := ["0"]]> (<["X-Ratelimit-Reset" := [reset]]> ∅))
    "forbidden".

Definition bad_gateway : Response :=
  mkResponse 502 "502 Bad Gateway" ∅ (of_bytes (bytes "bad gateway" ++ [10])).

(** A body that is not ASCII: U+3000, "é", a space, U+00A0 and a line
    feed. *)
Definition server_error : Response :=
  mkResponse 500 "500 Internal Server Error" ∅
    (of_bytes [0xE3; 0x80; 0x80; 0xC3; 0xA9; 0x20; 0xC2; 0xA0; 0x0A]).

(** ** Notions used in the further properties *)

(** The event types [formatEvent] has a case for: those whose payload it
    decodes and those it renders from the repository name alone. *)
Definition payload_types : list string :=
  ["PushEvent"; "IssuesEvent"; "PullRequestEvent"; "WatchEvent"; "ForkEvent"].

Definition plain_types : list string :=
  ["CreateEvent"; "DeleteEvent"; "ReleaseEvent"; "PullRequestReviewCommentEvent";
   "IssueCommentEvent"].

Definition supported (type : string) : Prop := type ∈ (payload_types ++ plain_types)%list.

(** The event has the type asked for with [--type]. *)
Definition has_type (eventType : string) (ev : Event) : bool :=
  String.eqb (Type_ ev) eventType.

(** The payload [{"size": n}] of a push event, [n] written in decimal. *)
Definition push_of_size (repo : string) (n : Z) : Event :=
  mkEvent "PushEvent" Time_zero (mkRepo repo) (Some (JObject [("size", JNumber (fmt_d n))])).

(** Title case on the bytes of ASCII text. *)
Definition title_bytes (l : list Z) : list Z :=
  match l with
  | [] => []
  | c :: rest => upper_byte c :: (lower_byte <$> rest)
  end.

(** The payload [{"action": a, key: {"number": n, "title": t}}] of an
    issues event ([key] is "issue") or a pull request event
    ("pull_request"). *)
Definition numbered_payload (key action : string) (n : Z) (title : string) : RawMessage :=
  Some (JObject [("action", JString action);
                 (key, JObject [("number", JNumber (fmt_d n)); ("title", JString title)])]).

Definition issue_event (repo action : string) (n : Z) (title : string) : Event :=
  mkEvent "IssuesEvent" Time_zero (mkRepo repo) (numbered_payload "issue" action n title).

Definition pr_event (repo action : string) (n : Z) (title : string) : Event :=
  mkEvent "PullRequestEvent" Time_zero (mkRepo repo)
    (numbered_payload "pull_request" action n title).

(** The payload [{"action": a}] of a watch event. *)
Definition watch_with_action (repo action : string) : Event :=
  mkEvent "WatchEvent" Time_zero (mkRepo repo) (Some (JObject [("action", JString action)])).

(** * Properties *)

(** ** Arithmetic of the limit *)

Lemma wrap64_id z : in_int64 z -> wrap64 z = z.
Proof.
  unfold in_int64, int64_min, int64_max, wrap64. intros Hz.
  rewrite Z.mod_small; lia.
Qed.

Lemma clamp_min_max n : clamp n = Z.max 1 (Z.min 100 n).
Proof.
  unfold clamp.
  destruct (n <? 1) eqn:H1.
  - apply Z.ltb_lt in H1. replace (1 >? 100) with false by reflexivity. lia.
  - apply Z.ltb_ge in H1. destruct (n >? 100) eqn:H2.
    + apply Z.gtb_lt in H2. lia.
    + rewrite Z.gtb_ltb in H2. apply Z.ltb_ge in H2. lia.
Qed.

Lemma clamp_range n : 1 <= clamp n <= 100.
Proof. rewrite clamp_min_max. lia. Qed.

(** ** The selection loop *)

Lemma qualifies_filtered_out eventType ev :
  negb (String.eqb eventType "") && negb (String.eqb (Type_ ev) eventType) = true ->
  qualifies eventType ev = false.
Proof.
  unfold qualifies. intros H. apply andb_prop in H as [H1 H2].
  apply negb_true_iff in H1, H2. by rewrite H1, H2.
Qed.

Lemma qualifies_kept eventType ev :
  negb (String.eqb eventType "") && negb (String.eqb (Type_ ev) eventType) = false ->
  qualifies eventType ev = (formatEvent ev).2.
Proof.
  unfold qualifies. intros H.
  destruct (String.eqb eventType ""), (String.eqb (Type_ ev) eventType);
    simpl in *; congruence.
Qed.

(** From any state of the counter below the limit, the loop prints the
    lines of the first [limit - count] qualifying events and counts
    them. *)
Lemma selection_loop_spec eventType limit events : forall count,
  0 <= count < limit -> limit <= int64_max ->
  let shown := take (Z.to_nat (limit - count)) (List.filter (qualifies eventType) events) in
  selection_loop eventType limit events count
  = (render <$> shown, count + Z.of_nat (length shown)).
Proof.
  induction events as [|ev rest IH]; intros count Hc Hl; simpl.
  - rewrite take_nil. simpl. f_equal. lia.
  - destruct (negb (String.eqb eventType "") && negb (String.eqb (Type_ ev) eventType)) eqn:Hf.
    + rewrite (qualifies_filtered_out _ _ Hf). by apply IH.
    + rewrite (qualifies_kept _ _ Hf). unfold render at 1.
      destruct (formatEvent ev) as [line ok] eqn:Hfmt. destruct ok; simpl.
      * rewrite wrap64_id by (unfold in_int64, int64_min, int64_max in *; lia).
        replace (Z.to_nat (limit - count)) with (S (Z.to_nat (limit - (count + 1)))) by lia.
        simpl. destruct (count + 1 >=? limit) eqn:Hge.
        -- apply Z.geb_le in Hge.
           replace (Z.to_nat (limit - (count + 1))) with 0%nat by lia.
           rewrite Hfmt. simpl. f_equal; lia.
        -- rewrite Z.geb_leb in Hge. apply Z.leb_gt in Hge.
           specialize (IH (count + 1) ltac:(lia) Hl). simpl in IH. rewrite IH.
           rewrite Hfmt. simpl. f_equal; lia.
      * by apply IH.
Qed.

Lemma printed_spec eventType limit events :
  1 <= limit <= int64_max ->
  printed eventType limit events
  = render <$> take (Z.to_nat limit) (List.filter (qualifies eventType) events).
Proof.
  intros Hl. unfold printed.
  rewrite selection_loop_spec by lia. simpl. by rewrite Z.sub_0_r.
Qed.

Lemma filter_sublist {A} (f : A -> bool) (l : list A) : List.filter f l `sublist_of` l.
Proof.
  induction l as [|x l IH]; simpl; [constructor|].
  destruct (f x); by constructor.
Qed.

Lemma filter_Forall {A} (f : A -> bool) (l : list A) :
  Forall (fun x => f x = true) (List.filter f l).
Proof.
  induction l as [|x l IH]; simpl; [constructor|].
  destruct (f x) eqn:Hx; [by constructor | done].
Qed.

(** C1: whatever the events, the filter and the value given to [--n]
    (30 when the flag is not given), the limit the loop runs with is the
    value clamped to [1, 100], and the number of lines the loop prints
    is at most that limit and at most the number of events that pass the
    filter and that [formatEvent] renders. *)
Theorem printed_lines_bounded (eventType : string) (n_flag : option Z) (events : list Event) :
  let limit := clamp (default 30 n_flag) in
  limit = Z.max 1 (Z.min 100 (default 30 n_flag))
  /\ clamp (default 30 None) = 30
  /\ Z.of_nat (length (printed eventType limit events)) <= limit
  /\ (length (printed eventType limit events)
      <= length (List.filter (qualifies eventType) events))%nat.
Proof.
  intros limit. pose proof (clamp_range (default 30 n_flag)) as Hr. fold limit in Hr.
  split; [apply clamp_min_max|]. split; [reflexivity|].
  rewrite printed_spec by (unfold int64_max; lia).
  rewrite length_fmap, length_take. split; lia.
Qed.

(** C4: the lines the loop prints are the renderings, by [formatEvent]
    and behind the marker of a line, of a subsequence of the events in
    their original order; every event of that subsequence passes the
    filter and is rendered by [formatEvent]. *)
Theorem printed_lines_in_feed_order (eventType : string) (n_flag : option Z)
    (events : list Event) :
  exists shown : list Event,
    shown `sublist_of` events
    /\ Forall (fun ev => qualifies eventType ev = true) shown
    /\ printed eventType (clamp (default 30 n_flag)) events
       = (fun ev => "- " +:+ (formatEvent ev).1) <$> shown.
Proof.
  pose proof (clamp_range (default 30 n_flag)) as Hr.
  exists (take (Z.to_nat (clamp (default 30 n_flag)))
               (List.filter (qualifies eventType) events)).
  split; [|split].
  - etrans; [apply sublist_take | apply filter_sublist].
  - apply Forall_take, filter_Forall.
  - rewrite printed_spec by (unfold int64_max; lia). reflexivity.
Qed.

(** ** formatEvent *)

(** C5: the issues event of repository alice/repo with action
    "opened", number 42 and title "Bug" is rendered as
    [Opened an issue #42 “Bug” in alice/repo]: the template is the
    action in title case, " an issue #", the number, the title and
    " in " with the repository, and the title stands between the
    quotation marks U+201C and U+201D that the format string of
    [formatEvent] holds (bytes E2 80 9C and E2 80 9D). *)
Theorem issue_opened_line :
  formatEvent issue_opened = ("Opened an issue #42 “Bug” in alice/repo", true)
  /\ bytes "“" = [0xE2; 0x80; 0x9C] /\ bytes "”" = [0xE2; 0x80; 0x9D]
  /\ forall (created : Time) (repo : string) (payload : RawMessage),
       formatEvent (mkEvent "IssuesEvent" created (mkRepo repo) payload)
       = match Unmarshal IssuesPayload_fields payload IssuesPayload_zero with
         | None => ("", false)
         | Some p =>
           (titleCase (strings_ToLower (Issues_Action p)) +:+ " an issue #"
              +:+ fmt_d (Number (Issue p)) +:+ " “" +:+ Title (Issue p) +:+ "” in "
              +:+ repo, true)
         end.
Proof. repeat split. Qed.

(** C9: a fork event of alice/repo is rendered with the full name of
    the forkee when the payload has a non-empty one and with the name
    of the repository itself when the payload has no forkee, a forkee
    without full name or an empty full name. *)
Theorem fork_lines :
  formatEvent fork_named = ("Forked alice/repo → bob/repo-fork", true)
  /\ formatEvent fork_no_forkee = ("Forked alice/repo → alice/repo", true)
  /\ formatEvent fork_no_name = ("Forked alice/repo → alice/repo", true)
  /\ formatEvent fork_empty_name = ("Forked alice/repo → alice/repo", true)
  /\ forall (created : Time) (repo : string) (payload : RawMessage),
       formatEvent (mkEvent "ForkEvent" created (mkRepo repo) payload)
       = match Unmarshal ForkPayload_fields payload ForkPayload_zero with
         | None => ("", false)
         | Some p =>
           ("Forked " +:+ repo +:+ " → "
              +:+ (if String.eqb (FullName (Forkee_ p)) "" then repo
                   else FullName (Forkee_ p)), true)
         end.
Proof.
  repeat split; try reflexivity.
  intros created repo payload. unfold formatEvent. simpl.
  destruct (Unmarshal ForkPayload_fields payload ForkPayload_zero) as [p|]; [|done].
  by destruct (String.eqb (FullName (Forkee_ p)) "").
Qed.

(** C10: for the five event types rendered without payload fields the
    line is made of the repository name alone and the event is never
    skipped, whatever the payload, even one that is no JSON text. *)
Theorem payload_not_consulted (created : Time) (repo : string) (payload : RawMessage) :
  formatEvent (mkEvent "CreateEvent" created (mkRepo repo) payload)
  = ("Created something in " +:+ repo, true)
  /\ formatEvent (mkEvent "DeleteEvent" created (mkRepo repo) payload)
     = ("Deleted something in " +:+ repo, true)
  /\ formatEvent (mkEvent "ReleaseEvent" created (mkRepo repo) payload)
     = ("Published or edited a release in " +:+ repo, true)
  /\ formatEvent (mkEvent "PullRequestReviewCommentEvent" created (mkRepo repo) payload)
     = ("Commented on a PR review in " +:+ repo, true)
  /\ formatEvent (mkEvent "IssueCommentEvent" created (mkRepo repo) payload)
     = ("Commented on an issue in " +:+ repo, true).
Proof. repeat split. Qed.

Lemma malformed_not_rendered ev : malformed ev -> formatEvent ev = ("", false).
Proof.
  unfold malformed, formatEvent.
  intros [[-> ->]|[[-> ->]|[[-> ->]|[[-> ->]|[-> ->]]]]]; reflexivity.
Qed.

Lemma selection_loop_skips eventType limit ev before after :
  (formatEvent ev).2 = false ->
  forall count,
    selection_loop eventType limit (before ++ ev :: after) count
    = selection_loop eventType limit (before ++ after) count.
Proof.
  intros Hev. induction before as [|e before IH]; intros count; simpl.
  - destruct (formatEvent ev) as [line ok]. simpl in Hev. subst ok.
    by destruct (negb (String.eqb eventType "") && negb (String.eqb (Type_ ev) eventType)).
  - destruct (negb (String.eqb eventType "") && negb (String.eqb (Type_ e) eventType));
      [apply IH|].
    destruct (formatEvent e) as [line [|]]; [|apply IH].
    destruct (wrap64 (count + 1) >=? limit); [done|]. by rewrite IH.
Qed.

(** A run that fetched its events ends with exit code 0 and writes
    nothing to the error stream. *)
Lemma main_after_fetch type_flag n_flag username events :
  fetchEvents username = Events events ->
  exit_code (main type_flag n_flag [username]) = 0
  /\ stderr (main type_flag n_flag [username]) = [].
Proof.
  intros Hf. unfold main. rewrite Hf.
  destruct (length events =? 0)%nat; [done|].
  by destruct (selection_loop _ _ events 0).
Qed.

(** A payload that lacks fields is not malformed: the struct keeps its
    zero values and the event is rendered with them. *)
Lemma missing_fields_rendered :
  formatEvent (alice_event "PushEvent" (Some (JObject [])))
  = ("Pushed 0 commit(s) to alice/repo", true)
  /\ formatEvent (alice_event "PushEvent" (Some JNull))
     = ("Pushed 0 commit(s) to alice/repo", true)
  /\ formatEvent (alice_event "IssuesEvent" (Some (JObject [])))
     = (" an issue #0 “” in alice/repo", true)
  /\ formatEvent (alice_event "WatchEvent" (Some (JObject [])))
     = ("Watch event on alice/repo", true).
Proof. repeat split. Qed.

(** C7: when the payload of a push, issues, pull request, watch or fork
    event does not decode into the struct of its type, [formatEvent]
    returns the empty line and [false]; the loop goes on as if the
    event were not in the feed, printing the same lines and ending with
    the same count; and a run whose feed holds the event still ends
    with exit code 0 and an empty error stream. *)
Theorem malformed_payload_skipped (ev : Event) (H : malformed ev) :
  formatEvent ev = ("", false)
  /\ (forall eventType limit before after count,
        selection_loop eventType limit (before ++ ev :: after) count
        = selection_loop eventType limit (before ++ after) count)
  /\ (forall type_flag n_flag username before after,
        fetchEvents username = Events (before ++ ev :: after) ->
        exit_code (main type_flag n_flag [username]) = 0
        /\ stderr (main type_flag n_flag [username]) = []).
Proof.
  pose proof (malformed_not_rendered ev H) as Hf. split; [done|]. split.
  - intros. apply selection_loop_skips. by rewrite Hf.
  - intros ? ? ? before after Hfetch. by apply (main_after_fetch _ _ _ _ Hfetch).
Qed.

(** ** titleCase *)

Lemma byte_of_range c : 0 <= byte_of c < 256.
Proof.
  unfold byte_of. pose proof (N_ascii_bounded c) as Hc. lia.
Qed.

Lemma of_bytes_length l : String.length (of_bytes l) = length l.
Proof.
  unfold of_bytes. induction l as [|b l IH]; simpl; [done|]. by f_equal.
Qed.

Lemma of_bytes_app l1 l2 : of_bytes (l1 ++ l2) = of_bytes l1 +:+ of_bytes l2.
Proof.
  induction l1 as [|b l1 IH]; [done|].
  change (String (char_of b) (of_bytes (l1 ++ l2))
          = String (char_of b) (of_bytes l1 +:+ of_bytes l2)).
  by rewrite IH.
Qed.

Lemma runes_ascii s : isASCII s = true -> Forall (fun c => 0 <= c) s -> utf8.runes s = s.
Proof.
  induction s as [|c s IH]; [done|]. intros Ha Hp.
  simpl in Ha. apply andb_prop in Ha as [Hc Ha].
  inversion Hp as [|? ? Hc0 Hp']; subst.
  change (utf8.runes (c :: s))
    with (let '(r, size) := utf8.DecodeRune (c :: s) in
          r :: match size, s with
               | 2%nat, _ :: t2 => utf8.runes t2
               | 3%nat, _ :: _ :: t3 => utf8.runes t3
               | 4%nat, _ :: _ :: _ :: t4 => utf8.runes t4
               | _, _ => utf8.runes s
               end).
  unfold utf8.DecodeRune. rewrite Hc. by rewrite IH.
Qed.

Lemma bytes_nonneg s : Forall (fun c => 0 <= c) (bytes s).
Proof.
  unfold bytes. induction s as [|a s IH]; simpl; constructor; [|done].
  pose proof (byte_of_range a). lia.
Qed.

Lemma encode_upper_ascii c :
  0 <= c -> (c <? utf8.RuneSelf) = true -> encode_mapped unicode_ToUpper c = [upper_byte c].
Proof.
  unfold utf8.RuneSelf. intros H0 Hc. apply Z.ltb_lt in Hc.
  unfold encode_mapped, unicode_ToUpper, upper_byte, unicode.MaxASCII, utf8.EncodeRune,
    utf8.in_range.
  repeat case_match; try reflexivity; lia.
Qed.

Lemma encode_lower_ascii c :
  0 <= c -> (c <? utf8.RuneSelf) = true -> encode_mapped unicode_ToLower c = [lower_byte c].
Proof.
  unfold utf8.RuneSelf. intros H0 Hc. apply Z.ltb_lt in Hc.
  unfold encode_mapped, unicode_ToLower, lower_byte, unicode.MaxASCII, utf8.EncodeRune,
    utf8.in_range.
  repeat case_match; try reflexivity; lia.
Qed.

Lemma bind_lower_ascii s :
  isASCII s = true -> Forall (fun c => 0 <= c) s ->
  (r ← s; encode_mapped unicode_ToLower r) = lower_byte <$> s.
Proof.
  induction s as [|c s IH]; [done|]. intros Ha Hp.
  simpl in Ha. apply andb_prop in Ha as [Hc Ha].
  inversion Hp as [|? ? Hc0 Hp']; subst.
  rewrite bind_cons, encode_lower_ascii, IH by done. reflexivity.
Qed.

(** On a string of ASCII bytes [titleCase] does what the rule says: the
    first byte in upper case, the others in lower case. *)
Lemma titleCase_ascii s :
  isASCII (bytes s) = true ->
  titleCase s = of_bytes (match bytes s with
                          | [] => []
                          | c :: rest => upper_byte c :: (lower_byte <$> rest)
                          end)
  /\ titleCase s = titleCase_by_character s.
Proof.
  destruct s as [|a s]; [done|]. intros Ha.
  pose proof (bytes_nonneg (String a s)) as Hp.
  unfold titleCase_by_character. rewrite runes_ascii by done.
  change (bytes (String a s)) with (byte_of a :: bytes s) in *.
  simpl in Ha. apply andb_prop in Ha as [Hc Ha].
  inversion Hp as [|? ? Hc0 Hp']; subst.
  rewrite encode_upper_ascii, bind_lower_ascii by done.
  assert (titleCase (String a s)
          = of_bytes (upper_byte (byte_of a) :: (lower_byte <$> bytes s))) as ->; [|done].
  unfold titleCase, strings_ToUpper, strings_ToLower. simpl.
  change (bytes (String a "")) with [byte_of a]. simpl. rewrite Hc, Ha. reflexivity.
Qed.

Lemma titleCase_examples : titleCase "CLOSED" = "Closed" /\ titleCase "" = "".
Proof. split; reflexivity. Qed.

Lemma EncodeRune_length r : (length (utf8.EncodeRune r) <= 4)%nat.
Proof. unfold utf8.EncodeRune. repeat case_match; simpl; lia. Qed.

Lemma encode_mapped_length mapping r : (length (encode_mapped mapping r) <= 4)%nat.
Proof.
  unfold encode_mapped. case_match; [apply EncodeRune_length | simpl; lia].
Qed.

(** C6, where the code departs from the rule: [titleCase] cuts the
    string after its first byte, not after its first character.  On
    "éa", whose first character takes two bytes, each half of the "é" is
    read as an invalid sequence and comes out as U+FFFD (which has no
    case pair): the result is U+FFFD U+FFFD "a", and not the first
    character in upper case followed by the remainder in lower case. *)
Theorem titleCase_cuts_first_character
    (H : forall c, unicode_To c utf8.RuneError = utf8.RuneError) :
  bytes "éa" = [0xC3; 0xA9; 0x61]
  /\ titleCase "éa" = of_bytes [0xEF; 0xBF; 0xBD; 0xEF; 0xBF; 0xBD; 0x61]
  /\ titleCase "éa" <> titleCase_by_character "éa".
Proof.
  assert (titleCase "éa" = of_bytes [0xEF; 0xBF; 0xBD; 0xEF; 0xBF; 0xBD; 0x61]) as Heq.
  { unfold titleCase, strings_ToUpper, strings_ToLower, strings_Map. simpl.
    unfold encode_mapped, unicode_ToUpper, unicode_ToLower. simpl.
    change 65533 with utf8.RuneError. rewrite !H. reflexivity. }
  split; [reflexivity|]. split; [exact Heq|].
  assert (titleCase_by_character "éa"
          = of_bytes (encode_mapped unicode_ToUpper 233 ++ [97])) as Hs by reflexivity.
  rewrite Heq, Hs. intros Hc. apply (f_equal String.length) in Hc.
  rewrite !of_bytes_length, length_app in Hc.
  pose proof (encode_mapped_length unicode_ToUpper 233) as Hl.
  simpl in Hc. lia.
Qed.

(** ** fetchEvents *)

Lemma string_length_app s1 s2 :
  String.length (s1 +:+ s2) = (String.length s1 + String.length s2)%nat.
Proof.
  induction s1 as [|a s1 IH]; [done|].
  change (S (String.length (s1 +:+ s2)) = S (String.length s1 + String.length s2)).
  by rewrite IH.
Qed.

Lemma bytes_length s : length (bytes s) = String.length s.
Proof.
  unfold bytes. rewrite length_fmap.
  induction s as [|a s IH]; [done|]. simpl. by rewrite IH.
Qed.

Lemma string_take_length n s : (String.length (string_take n s) <= n)%nat.
Proof.
  revert s. induction n as [|n IH]; intros [|a s]; simpl; try lia.
  specialize (IH s). lia.
Qed.

Lemma string_take_drop n s : s = string_take n s +:+ string_drop n s.
Proof.
  revert s. induction n as [|n IH]; intros [|a s]; try done.
  change (String a s = String a (string_take n s +:+ string_drop n s)).
  by rewrite <- IH.
Qed.

Lemma wrap64_range z : in_int64 (wrap64 z).
Proof.
  unfold in_int64, int64_min, int64_max, wrap64.
  pose proof (Z.mod_pos_bound (z + 2 ^ 63) (2 ^ 64) ltac:(lia)). lia.
Qed.

Lemma ParseInt_range s n : strconv_ParseInt s = (n, None) -> in_int64 n.
Proof.
  unfold strconv_ParseInt. intros Hp.
  repeat case_match; simplify_eq; apply wrap64_range.
Qed.

(** *** [strconv.ParseInt] *)

Lemma decimal_from_ge ds : forall n, Forall is_digit ds -> 0 <= n -> n <= decimal_from n ds.
Proof.
  unfold decimal_from, is_digit.
  induction ds as [|c ds IH]; intros n Hd Hn; simpl; [lia|].
  inversion Hd as [|? ? Hc Hd']; subst.
  specialize (IH (n * 10 + (c - 48)) Hd' ltac:(lia)). lia.
Qed.

Lemma in_range_digit c : utf8.in_range 48 57 c = true <-> is_digit c.
Proof. unfold utf8.in_range, is_digit. rewrite andb_true_iff, !Z.leb_le. tauto. Qed.

Lemma ParseUint_loop_digits ds : forall n,
  Forall is_digit ds -> 0 <= n <= maxUint64 ->
  ParseUint_loop ds n
  = if decimal_from n ds <=? maxUint64 then (decimal_from n ds, None)
    else (maxUint64, Some ErrRange).
Proof.
  induction ds as [|c ds IH]; intros n Hd Hn.
  - unfold decimal_from. simpl. destruct (Z.leb_spec n maxUint64); [done|lia].
  - inversion Hd as [|? ? Hc Hd']; subst.
    change (decimal_from n (c :: ds)) with (decimal_from (n * 10 + (c - 48)) ds).
    pose proof (decimal_from_ge ds (n * 10 + (c - 48)) Hd') as Hge.
    unfold is_digit in Hc. simpl.
    rewrite (proj2 (in_range_digit c) Hc).
    unfold maxUint64 in *.
    change ((2 ^ 64 - 1) / 10 + 1) with 1844674407370955162.
    destruct (n >=? 1844674407370955162) eqn:Hcut.
    + apply Z.geb_le in Hcut.
      destruct (Z.leb_spec (decimal_from (n * 10 + (c - 48)) ds) (2 ^ 64 - 1)); [lia|done].
    + rewrite Z.geb_leb in Hcut. apply Z.leb_gt in Hcut.
      destruct (n * 10 + (c - 48) >? 2 ^ 64 - 1) eqn:Hov.
      * apply Z.gtb_lt in Hov.
        destruct (Z.leb_spec (decimal_from (n * 10 + (c - 48)) ds) (2 ^ 64 - 1)); [lia|done].
      * rewrite Z.gtb_ltb in Hov. apply Z.ltb_ge in Hov.
        apply IH; [done|lia].
Qed.

Lemma ParseUint_loop_other ds : forall n,
  ~ Forall is_digit ds -> (ParseUint_loop ds n).2 <> None.
Proof.
  induction ds as [|c ds IH]; intros n Hd; [by destruct Hd|].
  simpl. destruct (utf8.in_range 48 57 c) eqn:Hc; [|done].
  apply in_range_digit in Hc.
  destruct (n >=? maxUint64 / 10 + 1); [done|].
  destruct (n * 10 + (c - 48) >? maxUint64); [done|].
  apply IH. intros Hds. apply Hd. by constructor.
Qed.

Lemma ParseUint_ok ds un :
  strconv_ParseUint ds = (un, None)
  <-> ds <> [] /\ Forall is_digit ds /\ un = decimal ds /\ un <= maxUint64.
Proof.
  unfold strconv_ParseUint, decimal. destruct ds as [|c ds].
  { split; [discriminate | by intros [? _]]. }
  assert (Decision (Forall is_digit (c :: ds))) as [Hd|Hd].
  { apply Forall_dec. intros x. unfold is_digit. apply _. }
  - rewrite ParseUint_loop_digits by (done || unfold maxUint64; lia).
    destruct (Z.leb_spec (decimal_from 0 (c :: ds)) maxUint64) as [Hle|Hgt].
    + split; [intros [= <-]; done | intros (_ & _ & -> & _); done].
    + split; [discriminate | intros (_ & _ & -> & ?); lia].
  - pose proof (ParseUint_loop_other (c :: ds) 0 Hd) as Hn.
    split; [intros Hp; by rewrite Hp in Hn | by intros (_ & ? & _)].
Qed.

Lemma ParseUint_loop_range ds : forall n un,
  ParseUint_loop ds n = (un, Some ErrRange) -> un = maxUint64.
Proof.
  induction ds as [|c ds IH]; intros n un; simpl; [discriminate|].
  repeat case_match; try discriminate; try (by intros [= <-]). apply IH.
Qed.

(** The part of [ParseInt] after the sign is picked off. *)
Lemma ParseInt_signed (neg : bool) digits n :
  match strconv_ParseUint digits with
  | (_, Some ErrSyntax) => (0, Some ErrSyntax)
  | (un, _) =>
    if negb neg && (un >=? 2 ^ 63) then (2 ^ 63 - 1, Some ErrRange)
    else if neg && (un >? 2 ^ 63) then (- 2 ^ 63, Some ErrRange)
    else (if neg then wrap64 (- wrap64 un) else wrap64 un, None)
  end = (n, None)
  <-> digits <> [] /\ Forall is_digit digits
      /\ n = (if neg then - decimal digits else decimal digits) /\ in_int64 n.
Proof.
  destruct (strconv_ParseUint digits) as [un [[]|]] eqn:Hp.
  - split; [discriminate|]. intros (Hne & Hd & _).
    assert (strconv_ParseUint digits = (decimal digits, None)
            \/ ~ decimal digits <= maxUint64) as [Hok|Hbig].
    { destruct (Z.le_gt_cases (decimal digits) maxUint64); [left|right; lia].
      by apply ParseUint_ok. }
    + congruence.
    + exfalso. unfold strconv_ParseUint in Hp. destruct digits as [|c ds]; [done|].
      rewrite ParseUint_loop_digits in Hp by (done || unfold maxUint64; lia).
      fold (decimal (c :: ds)) in Hp.
      destruct (Z.leb_spec (decimal (c :: ds)) maxUint64); [lia|discriminate].
  - assert (un = maxUint64) as ->.
    { unfold strconv_ParseUint in Hp. destruct digits; [discriminate|].
      by apply ParseUint_loop_range in Hp. }
    assert (forall v, strconv_ParseUint digits <> (v, None)) as Hno by (intros v; congruence).
    split.
    + destruct neg; simpl; discriminate.
    + intros (Hne & Hd & -> & Hr). exfalso.
      unfold in_int64, int64_min, int64_max in Hr.
      apply (Hno (decimal digits)), ParseUint_ok. repeat split; try done.
      unfold maxUint64. pose proof (decimal_from_ge digits 0 Hd ltac:(lia)).
      unfold decimal in *. destruct neg; lia.
  - apply ParseUint_ok in Hp as (Hne & Hd & -> & Hmax).
    pose proof (decimal_from_ge digits 0 Hd ltac:(lia)) as H0. fold (decimal digits) in H0.
    unfold maxUint64 in Hmax. unfold in_int64, int64_min, int64_max.
    destruct neg; simpl.
    + destruct (decimal digits >? 2 ^ 63) eqn:Hc.
      * apply Z.gtb_lt in Hc. split; [discriminate | intros (_ & _ & -> & ?); lia].
      * rewrite Z.gtb_ltb in Hc. apply Z.ltb_ge in Hc.
        assert (wrap64 (- wrap64 (decimal digits)) = - decimal digits) as ->.
        { destruct (Z.eq_dec (decimal digits) (2 ^ 63)) as [->|]; [reflexivity|].
          rewrite (wrap64_id (decimal digits)), wrap64_id;
            unfold in_int64, int64_min, int64_max; lia. }
        split; [intros [= <-]; repeat split; try done; lia | by intros (_ & _ & -> & _)].
    + destruct (decimal digits >=? 2 ^ 63) eqn:Hc.
      * apply Z.geb_le in Hc. split; [discriminate | intros (_ & _ & -> & ?); lia].
      * rewrite Z.geb_leb in Hc. apply Z.leb_gt in Hc.
        rewrite wrap64_id by (unfold in_int64, int64_min, int64_max; lia).
        split; [intros [= <-]; repeat split; try done; lia | by intros (_ & _ & -> & _)].
Qed.

(** [strconv.ParseInt] succeeds on the decimal integers of 64 bits, an
    optional sign before one or more digits, and on nothing else. *)
Lemma ParseInt_ok s n : strconv_ParseInt s = (n, None) <-> decimal_int64 s n.
Proof.
  unfold strconv_ParseInt, decimal_int64.
  destruct (bytes s) as [|c t] eqn:Hb.
  { split; [discriminate|]. intros (sign & ds & Hs & _ & Hne & _).
    symmetry in Hs. apply app_eq_nil in Hs as [_ ->]. done. }
  destruct (Z.eqb_spec c 43) as [->|H43]; [|destruct (Z.eqb_spec c 45) as [->|H45]]; simpl.
  - rewrite (ParseInt_signed false t n). split.
    + intros (Hne & Hd & -> & Hr). exists [43], t. by split_and!; auto.
    + intros (sign & ds & Hs & Hsign & Hne & Hd & -> & Hr).
      destruct Hsign as [-> | [-> | ->]]; simpl in Hs.
      * subst ds. inversion Hd as [|? ? Hc _]. unfold is_digit in Hc. lia.
      * injection Hs as <-. by rewrite bool_decide_eq_false_2.
      * discriminate.
  - rewrite (ParseInt_signed true t n). split.
    + intros (Hne & Hd & -> & Hr). exists [45], t. by split_and!; auto.
    + intros (sign & ds & Hs & Hsign & Hne & Hd & -> & Hr).
      destruct Hsign as [-> | [-> | ->]]; simpl in Hs.
      * subst ds. inversion Hd as [|? ? Hc _]. unfold is_digit in Hc. lia.
      * discriminate.
      * injection Hs as <-. by rewrite bool_decide_eq_true_2.
  - rewrite (ParseInt_signed false (c :: t) n). split.
    + intros (Hne & Hd & -> & Hr). exists [], (c :: t). by split_and!; auto.
    + intros (sign & ds & Hs & Hsign & Hne & Hd & -> & Hr).
      destruct Hsign as [-> | [-> | ->]]; simpl in Hs.
      * subst ds. by rewrite bool_decide_eq_false_2.
      * injection Hs as ? _. lia.
      * injection Hs as ? _. lia.
Qed.

Lemma IsZero_Unix sec :
  in_int64 sec -> IsZero (time_Unix sec) = (sec =? zero_instant).
Proof.
  unfold in_int64, int64_min, int64_max, IsZero, time_Unix, wrap64, zero_instant,
    unixToInternal. simpl wall. simpl ext. intros Hs.
  rewrite Z.land_0_l, andb_true_r.
  destruct (sec =? -62135596800) eqn:He.
  - apply Z.eqb_eq in He. subst sec. reflexivity.
  - apply Z.eqb_neq in He. apply Z.eqb_neq. intros Hw.
    change ((1969 * 365 + 1969 / 4 - 1969 / 100 + 1969 / 400) * 86400) with 62135596800 in Hw.
    pose proof (Z.div_mod (sec + 62135596800 + 2 ^ 63) (2 ^ 64) ltac:(lia)) as Hd.
    pose proof (Z.mod_pos_bound (sec + 62135596800 + 2 ^ 63) (2 ^ 64) ltac:(lia)).
    lia.
Qed.

Lemma rate_limit_msg_plain : ~ has_reset_annotation rate_limit_msg.
Proof.
  intros [t Ht]. apply (f_equal String.length) in Ht.
  rewrite !string_length_app in Ht. simpl in Ht. lia.
Qed.

(** What [fetchEvents] returns once the request went out and a response
    came back. *)
Lemma fetchEvents_classify username resp :
  http_NewRequest_error (eventsURL username) = None ->
  http_Do (mkRequest "GET" (eventsURL username) (Header_Set ∅ "User-Agent" userAgent))
  = inr resp ->
  fetchEvents username = classify resp.
Proof. unfold fetchEvents. by intros -> ->. Qed.

(** The message of a 403 response without remaining quota, from the
    reset header alone. *)
Lemma classify_rate_limited resp :
  StatusCode resp = 403 ->
  Header_Get (Header resp) "X-RateLimit-Remaining" = "0" ->
  classify resp
  = Failed match strconv_ParseInt (Header_Get (Header resp) "X-RateLimit-Reset") with
           | (sec, None) =>
             if sec =? zero_instant then rate_limit_msg
             else rate_limit_msg +:+ " (resets at "
                    +:+ Local_Format_RFC1123 (time_Unix sec) +:+ ")"
           | (_, Some _) => rate_limit_msg
           end.
Proof.
  intros Hs Hr. unfold classify. rewrite Hs, Hr. simpl.
  destruct (String.eqb (Header_Get (Header resp) "X-RateLimit-Reset") "") eqn:He; simpl.
  - apply String.eqb_eq in He. by rewrite He.
  - unfold parseUnix.
    destruct (strconv_ParseInt (Header_Get (Header resp) "X-RateLimit-Reset"))
      as [sec [err|]] eqn:Hp; simpl; [done|].
    rewrite (IsZero_Unix sec (ParseInt_range _ _ Hp)).
    by destruct (sec =? zero_instant).
Qed.

(** C2, as the code has it: a 403 response whose X-RateLimit-Remaining
    header is "0" makes [fetchEvents] fail with a message that starts
    with the rate-limit text.  The message carries the reset time, in
    local time, exactly when the X-RateLimit-Reset header is a decimal
    integer of 64 bits (which an absent or empty header is not) other
    than -62135596800, the second of the zero [Time]; otherwise the
    message is the rate-limit text alone. *)
Theorem rate_limit_annotation (username : string) (resp : Response)
    (Hreq : http_NewRequest_error (eventsURL username) = None)
    (Hdo : http_Do (mkRequest "GET" (eventsURL username)
                      (Header_Set ∅ "User-Agent" userAgent)) = inr resp)
    (Hstatus : StatusCode resp = 403)
    (Hremaining : Header_Get (Header resp) "X-RateLimit-Remaining" = "0") :
  let reset := Header_Get (Header resp) "X-RateLimit-Reset" in
  exists msg,
    fetchEvents username = Failed msg
    /\ (exists rest, msg = rate_limit_msg +:+ rest)
    /\ (has_reset_annotation msg
        <-> exists sec, decimal_int64 reset sec /\ sec <> zero_instant)
    /\ (forall sec, decimal_int64 reset sec -> sec <> zero_instant ->
        msg = rate_limit_msg +:+ " (resets at "
                +:+ Local_Format_RFC1123 (time_Unix sec) +:+ ")")
    /\ (~ has_reset_annotation msg -> msg = rate_limit_msg).
Proof.
  intros reset. rewrite (fetchEvents_classify _ _ Hreq Hdo).
  rewrite (classify_rate_limited _ Hstatus Hremaining). fold reset.
  setoid_rewrite <- ParseInt_ok.
  destruct (strconv_ParseInt reset) as [sec [err|]] eqn:Hp.
  - exists rate_limit_msg. split; [done|]. split; [by exists ""|].
    split; [|split]; [| intros; simplify_eq | done].
    split; [by intros ?%rate_limit_msg_plain | by intros (? & ? & _)].
  - destruct (sec =? zero_instant) eqn:Hz.
    + apply Z.eqb_eq in Hz. exists rate_limit_msg. split; [done|]. split; [by exists ""|].
      split; [|split]; [| intros; simplify_eq | done].
      split; [by intros ?%rate_limit_msg_plain | intros (? & ? & ?); simplify_eq].
    + apply Z.eqb_neq in Hz. eexists. split; [done|]. split; [by eexists|].
      split; [|split].
      * split; [intros _; by exists sec | intros _; by eexists].
      * intros; by simplify_eq.
      * intros []. by eexists.
Qed.

Lemma TrimRightFunc_length s f :
  (length (strings_trim.TrimRightFunc s f) <= length s)%nat.
Proof. unfold strings_trim.TrimRightFunc. rewrite length_take. lia. Qed.

Lemma TrimSpace_bytes_length s :
  (length (strings_trim.TrimSpace_bytes s) <= length s)%nat.
Proof.
  unfold strings_trim.TrimSpace_bytes, strings_trim.TrimFunc, strings_trim.TrimLeftFunc,
    strings_trim.slice.
  repeat case_match;
    repeat (etrans; [apply TrimRightFunc_length|]);
    rewrite ?length_take, ?length_drop; simpl; lia.
Qed.

Lemma TrimSpace_length s : (String.length (strings_TrimSpace s) <= String.length s)%nat.
Proof.
  unfold strings_TrimSpace. rewrite of_bytes_length, <- bytes_length.
  apply TrimSpace_bytes_length.
Qed.

(** *** The loops of package strings end within their fuel *)

Lemma scan_start_le fuel s : forall start lim,
  strings_trim.scan_start fuel s start lim <= start.
Proof.
  induction fuel as [|fuel IH]; intros start lim; simpl; [lia|].
  repeat case_match; try lia. specialize (IH (start - 1) lim). lia.
Qed.

(** More fuel than the distance to [lim] changes nothing. *)
Lemma scan_start_fuel fuel s : forall start lim,
  start - lim < Z.of_nat fuel ->
  strings_trim.scan_start (S fuel) s start lim = strings_trim.scan_start fuel s start lim.
Proof.
  induction fuel as [|fuel IH]; intros start lim Hf.
  - simpl. destruct (Z.ltb_spec start lim); [done|lia].
  - change (strings_trim.scan_start (S (S fuel)) s start lim)
      with (if start <? lim then start
            else match s !! Z.to_nat start with
                 | Some b => if utf8.RuneStart b then start
                             else strings_trim.scan_start (S fuel) s (start - 1) lim
                 | None => start
                 end).
    rewrite IH by lia. reflexivity.
Qed.

Lemma DecodeLastRune_width s :
  s <> [] -> (1 <= (strings_trim.DecodeLastRune s).2)%nat.
Proof.
  intros Hs. unfold strings_trim.DecodeLastRune.
  destruct (last s) as [b|] eqn:Hl; [|by apply last_None in Hl].
  destruct (b <? utf8.RuneSelf); [simpl; lia|].
  pose proof (scan_start_le utf8.UTFMax s (Z.of_nat (length s) - 2)
                (Z.max 0 (Z.of_nat (length s) - Z.of_nat utf8.UTFMax))) as Hle.
  destruct (utf8.DecodeRune _) as [r size].
  destruct (Z.eqb_spec (Z.max 0 (strings_trim.scan_start utf8.UTFMax s
                                   (Z.of_nat (length s) - 2)
                                   (Z.max 0 (Z.of_nat (length s) - Z.of_nat utf8.UTFMax)))
                        + Z.of_nat size) (Z.of_nat (length s))) as [He|]; simpl; [|lia].
  destruct s; [done|]. simpl length in *. lia.
Qed.

(** [lastIndexFunc_from] gives the same result with any fuel of at least
    [i]: the loop it stands for ends. *)
Lemma lastIndexFunc_from_fuel s f truth : forall fuel fuel' i,
  (i <= fuel)%nat -> (i <= fuel')%nat -> (i <= length s)%nat ->
  strings_trim.lastIndexFunc_from fuel s f truth i
  = strings_trim.lastIndexFunc_from fuel' s f truth i.
Proof.
  induction fuel as [|fuel IH]; intros fuel' i Hi Hi' Hs.
  - assert (i = 0%nat) as -> by lia. by destruct fuel'.
  - destruct fuel' as [|fuel'].
    + assert (i = 0%nat) as -> by lia. reflexivity.
    + simpl. destruct (Nat.eqb_spec i 0); [done|].
      pose proof (DecodeLastRune_width (take i s)) as Hw.
      destruct (strings_trim.DecodeLastRune (take i s)) as [r size]. simpl in Hw.
      assert (1 <= size)%nat.
      { apply Hw. intros Ht. apply (f_equal length) in Ht.
        rewrite length_take in Ht. simpl in Ht. lia. }
      destruct (Bool.eqb (f r) truth); [done|]. apply IH; lia.
Qed.

(** *** [TrimSpace] on ASCII text *)

Lemma asciiSpace_ascii c : strings_trim.asciiSpace c = true -> (utf8.RuneSelf <=? c) = false.
Proof.
  unfold strings_trim.asciiSpace, utf8.RuneSelf. intros H. apply Z.leb_gt.
  repeat (apply orb_prop in H as [H|H]); apply Z.eqb_eq in H; lia.
Qed.

Lemma leading_spaces l :
  exists a, l = (a ++ drop_spaces l)%list
            /\ Forall (fun c => strings_trim.asciiSpace c = true) a
            /\ (drop_spaces l = [] \/ exists c t, drop_spaces l = c :: t /\ strings_trim.asciiSpace c = false).
Proof.
  induction l as [|c l (a & Hl & Ha & Hd)]; simpl.
  - exists []. auto.
  - destruct (strings_trim.asciiSpace c) eqn:Hc.
    + exists (c :: a). split; [by rewrite Hl at 1|]. split; [by constructor|done].
    + exists []. split; [done|]. split; [constructor|]. right. by exists c, l.
Qed.

Lemma trailing_spaces l :
  exists b, l = (reverse (drop_spaces (reverse l)) ++ b)%list
            /\ Forall (fun c => strings_trim.asciiSpace c = true) b
            /\ (reverse (drop_spaces (reverse l)) = []
                \/ exists x c, reverse (drop_spaces (reverse l)) = (x ++ [c])%list
                               /\ strings_trim.asciiSpace c = false).
Proof.
  destruct (leading_spaces (reverse l)) as (a & Hl & Ha & Hd).
  exists (reverse a). split; [|split].
  - rewrite <- reverse_app, <- Hl. by rewrite reverse_involutive.
  - by apply Forall_reverse.
  - destruct Hd as [->|(c & t & -> & Hc)]; [by left|right].
    exists (reverse t), c. by rewrite reverse_cons.
Qed.

Lemma scan_left_ascii s : forall k,
  isASCII s = true ->
  strings_trim.scan_left s k = strings_trim.Stop (k + (length s - length (drop_spaces s))).
Proof.
  induction s as [|c s IH]; intros k Ha; simpl.
  - f_equal. lia.
  - simpl in Ha. apply andb_prop in Ha as [Hc Ha].
    unfold utf8.RuneSelf in *. apply Z.ltb_lt in Hc.
    destruct (Z.leb_spec 128 c); [lia|].
    destruct (strings_trim.asciiSpace c) eqn:Hs.
    + rewrite IH by done. f_equal.
      assert (length (drop_spaces s) <= length s)%nat.
      { destruct (leading_spaces s) as (a & Hl & _). rewrite Hl at 2. rewrite length_app. lia. }
      lia.
    + f_equal. simpl. lia.
Qed.

Lemma scan_right_S s start k :
  strings_trim.scan_right s start (S k)
  = if (S k <=? start)%nat then strings_trim.Stop (S k)
    else match s !! k with
         | Some c =>
           if utf8.RuneSelf <=? c then strings_trim.NonASCII (S k)
           else if strings_trim.asciiSpace c then strings_trim.scan_right s start k
           else strings_trim.Stop (S k)
         | None => strings_trim.Stop (S k)
         end.
Proof. reflexivity. Qed.

Lemma scan_right_spaces front x b : forall back,
  Forall (fun c => strings_trim.asciiSpace c = true) b ->
  (x = [] \/ exists x' c, x = (x' ++ [c])%list /\ strings_trim.asciiSpace c = false /\ c < utf8.RuneSelf) ->
  strings_trim.scan_right (front ++ x ++ b ++ back) (length front) (length front + length x + length b)
  = strings_trim.Stop (length front + length x).
Proof.
  induction b as [|c b IH] using rev_ind; intros back Hb Hx.
  - rewrite app_nil_l, Nat.add_0_r.
    destruct Hx as [->|(x' & c & -> & Hc & Hlt)].
    + rewrite app_nil_l, Nat.add_0_r. destruct (length front) eqn:Hf; [done|].
      by rewrite scan_right_S, Nat.leb_refl.
    + rewrite length_app, Nat.add_assoc, Nat.add_1_r, scan_right_S.
      destruct (Nat.leb_spec (S (length front + length x')) (length front)); [lia|].
      rewrite lookup_app_r by lia. rewrite <- app_assoc.
      rewrite lookup_app_r by lia.
      replace (length front + length x' - length front - length x')%nat with 0%nat by lia.
      simpl. destruct (Z.leb_spec utf8.RuneSelf c); [lia|].
      by rewrite Hc.
  - apply Forall_app in Hb as [Hb Hc]. inversion Hc as [|? ? Hc' _]; subst.
    rewrite length_app, Nat.add_assoc, Nat.add_1_r, scan_right_S.
    destruct (Nat.leb_spec (S (length front + length x + length b)) (length front)); [lia|].
    rewrite lookup_app_r by lia. rewrite lookup_app_r by lia.
    rewrite <- app_assoc. rewrite lookup_app_r by lia.
    replace (length front + length x + length b - length front - length x - length b)%nat
      with 0%nat by lia.
    simpl. rewrite (asciiSpace_ascii _ Hc'), Hc'.
    apply (IH (c :: back) Hb Hx).
Qed.

Lemma isASCII_app a b : isASCII (a ++ b) = isASCII a && isASCII b.
Proof. apply forallb_app. Qed.

Lemma TrimSpace_bytes_ascii s : isASCII s = true -> strings_trim.TrimSpace_bytes s = trim_ascii s.
Proof.
  intros Ha. unfold strings_trim.TrimSpace_bytes, trim_ascii.
  rewrite scan_left_ascii by done. rewrite Nat.add_0_l.
  destruct (leading_spaces s) as (a & Hs & _ & _).
  destruct (trailing_spaces (drop_spaces s)) as (b & Hd & Hb & Hx).
  set (x := reverse (drop_spaces (reverse (drop_spaces s)))) in *.
  assert (length s - length (drop_spaces s) = length a)%nat as ->.
  { rewrite Hs at 1. rewrite length_app. lia. }
  assert (s = a ++ x ++ b ++ [])%list as Hsplit.
  { rewrite app_nil_r, <- Hd. exact Hs. }
  assert (length s = length a + length x + length b)%nat as Hlen.
  { rewrite Hsplit at 1. rewrite !length_app. simpl. lia. }
  rewrite Hlen. rewrite Hsplit at 1.
  rewrite scan_right_spaces; [| done |].
  - unfold strings_trim.slice. rewrite Hsplit, drop_app_length.
    replace (length a + length x - length a)%nat with (length x) by lia.
    by rewrite take_app_length.
  - destruct Hx as [Hx|(x' & c & Hx & Hc)]; [by left|right].
    exists x', c. split; [done|]. split; [done|].
    rewrite Hsplit, Hx in Ha. rewrite !isASCII_app in Ha.
    simpl in Ha. rewrite andb_true_r in Ha.
    apply andb_prop in Ha as [_ Ha]. apply andb_prop in Ha as [Ha _].
    apply andb_prop in Ha as [_ Ha]. by apply Z.ltb_lt in Ha.
Qed.

Lemma TrimSpace_ascii s :
  isASCII (bytes s) = true -> strings_TrimSpace s = of_bytes (trim_ascii (bytes s)).
Proof. intros Ha. unfold strings_TrimSpace. by rewrite TrimSpace_bytes_ascii. Qed.

(** *** [TrimSpace] on any text *)

Lemma byte_of_char_of b : 0 <= b < 256 -> byte_of (char_of b) = b.
Proof.
  intros Hb. unfold byte_of, char_of. rewrite N_ascii_embedding; lia.
Qed.

Lemma bytes_of_bytes l : Forall (fun c => 0 <= c < 256) l -> bytes (of_bytes l) = l.
Proof.
  unfold bytes, of_bytes. rewrite list_ascii_of_string_of_list_ascii.
  induction 1 as [|c l Hc _ IH]; [done|].
  rewrite !fmap_cons. by rewrite byte_of_char_of, IH.
Qed.

Lemma in_range_spec lo hi b : utf8.in_range lo hi b = true <-> lo <= b <= hi.
Proof. unfold utf8.in_range. rewrite andb_true_iff, !Z.leb_le. done. Qed.

Lemma land_low b k : 0 <= k -> Z.land b (2 ^ k - 1) = b mod 2 ^ k.
Proof. intros Hk. rewrite <- Z.land_ones by done. by rewrite Z.ones_equiv, <- Z.sub_1_r. Qed.

Lemma lor_add a b k : 0 <= k -> 0 <= b < 2 ^ k -> Z.lor (a * 2 ^ k) b = a * 2 ^ k + b.
Proof.
  intros Hk Hb.
  assert (Z.land (a * 2 ^ k) b = 0) as Hd.
  { apply Z.bits_inj'. intros n Hn. rewrite Z.land_spec, Z.bits_0.
    destruct (Z.lt_ge_cases n k).
    - by rewrite Z.mul_pow2_bits_low.
    - destruct (Z.eq_dec b 0) as [->|]; [by rewrite Z.bits_0, andb_false_r|].
      rewrite (Z.bits_above_log2 b n), andb_false_r; [done|lia|].
      apply Z.log2_lt_pow2; [lia|]. 
      assert (2 ^ k <= 2 ^ n) by (apply Z.pow_le_mono_r; lia). lia. }
  by rewrite <- Z.lxor_lor, <- Z.add_nocarry_lxor.
Qed.

Lemma first_spec b0 sz lo hi :
  utf8.first b0 = Some (sz, (lo, hi)) ->
  0x80 <= lo /\ hi <= 0xBF
  /\ ((sz = 2%nat /\ 0xC2 <= b0 <= 0xDF)
      \/ (sz = 3%nat /\ 0xE0 <= b0 <= 0xEF /\ (b0 = 0xE0 -> lo = 0xA0))
      \/ (sz = 4%nat /\ 0xF0 <= b0 <= 0xF4 /\ (b0 = 0xF0 -> lo = 0x90))).
Proof.
  unfold utf8.first.
  repeat (case_match; [intros [= <- <- <-];
    repeat match goal with
    | H : utf8.in_range _ _ _ = true |- _ => apply in_range_spec in H
    | H : utf8.in_range _ _ _ = false |- _ => apply not_true_iff_false in H; rewrite in_range_spec in H
    | H : (_ =? _) = true |- _ => apply Z.eqb_eq in H
    | H : (_ =? _) = false |- _ => apply Z.eqb_neq in H
    end; lia|]).
  done.
Qed.

Lemma land_mask b k m d :
  0 <= k -> m = 2 ^ k - 1 -> 0 <= b - d * 2 ^ k < 2 ^ k -> Z.land b m = b - d * 2 ^ k.
Proof.
  intros Hk -> Hb. rewrite land_low by done. symmetry. apply (Z.mod_unique b _ d); lia.
Qed.

Lemma lor_shift a b k n :
  0 <= k -> n = 2 ^ k -> 0 <= b < n -> Z.lor (a * n) b = a * n + b.
Proof. intros Hk -> Hb. by apply lor_add. Qed.

Lemma decode2 b0 b1 :
  0xC0 <= b0 <= 0xDF -> 0x80 <= b1 <= 0xBF ->
  Z.lor (Z.shiftl (Z.land b0 0x1F) 6) (Z.land b1 0x3F) = (b0 - 0xC0) * 64 + (b1 - 0x80).
Proof.
  intros H0 H1.
  rewrite (land_mask b0 5 _ 6), (land_mask b1 6 _ 2), Z.shiftl_mul_pow2 by (done || lia).
  change (2 ^ 5) with 32. change (2 ^ 6) with 64.
  rewrite (lor_shift _ _ 6) by (done || lia). lia.
Qed.

Lemma decode3 b0 b1 b2 :
  0xE0 <= b0 <= 0xEF -> 0x80 <= b1 <= 0xBF -> 0x80 <= b2 <= 0xBF ->
  Z.lor (Z.lor (Z.shiftl (Z.land b0 0x0F) 12) (Z.shiftl (Z.land b1 0x3F) 6)) (Z.land b2 0x3F)
  = (b0 - 0xE0) * 4096 + (b1 - 0x80) * 64 + (b2 - 0x80).
Proof.
  intros H0 H1 H2.
  rewrite (land_mask b0 4 _ 14), (land_mask b1 6 _ 2), (land_mask b2 6 _ 2),
    !Z.shiftl_mul_pow2 by (done || lia).
  change (2 ^ 4) with 16. change (2 ^ 6) with 64. change (2 ^ 12) with 4096.
  rewrite (lor_shift _ _ 12) by (done || lia).
  replace ((b0 - 14 * 16) * 4096 + (b1 - 2 * 64) * 64)
    with (((b0 - 14 * 16) * 64 + (b1 - 2 * 64)) * 64) by lia.
  rewrite (lor_shift _ _ 6) by (done || lia). lia.
Qed.

Lemma decode4 b0 b1 b2 b3 :
  0xF0 <= b0 <= 0xF7 -> 0x80 <= b1 <= 0xBF -> 0x80 <= b2 <= 0xBF -> 0x80 <= b3 <= 0xBF ->
  Z.lor (Z.lor (Z.lor (Z.shiftl (Z.land b0 0x07) 18) (Z.shiftl (Z.land b1 0x3F) 12))
               (Z.shiftl (Z.land b2 0x3F) 6)) (Z.land b3 0x3F)
  = (b0 - 0xF0) * 262144 + (b1 - 0x80) * 4096 + (b2 - 0x80) * 64 + (b3 - 0x80).
Proof.
  intros H0 H1 H2 H3.
  rewrite (land_mask b0 3 _ 30), (land_mask b1 6 _ 2), (land_mask b2 6 _ 2),
    (land_mask b3 6 _ 2), !Z.shiftl_mul_pow2 by (done || lia).
  change (2 ^ 3) with 8. change (2 ^ 6) with 64. change (2 ^ 12) with 4096.
  change (2 ^ 18) with 262144.
  rewrite (lor_shift _ _ 18) by (done || lia).
  replace ((b0 - 30 * 8) * 262144 + (b1 - 2 * 64) * 4096)
    with (((b0 - 30 * 8) * 64 + (b1 - 2 * 64)) * 4096) by lia.
  rewrite (lor_shift _ _ 12) by (done || lia).
  replace (((b0 - 30 * 8) * 64 + (b1 - 2 * 64)) * 4096 + (b2 - 2 * 64) * 64)
    with ((((b0 - 30 * 8) * 64 + (b1 - 2 * 64)) * 64 + (b2 - 2 * 64)) * 64) by lia.
  rewrite (lor_shift _ _ 6) by (done || lia). lia.
Qed.

Ltac bools :=
  repeat match goal with
  | H : _ && _ = true |- _ => apply andb_prop in H as [? ?]
  | H : _ || _ = true |- _ => apply orb_prop in H as [?|?]
  | H : utf8.in_range _ _ _ = true |- _ => apply in_range_spec in H
  | H : utf8.is_cont _ = true |- _ => apply in_range_spec in H
  | H : (_ =? _) = true |- _ => apply Z.eqb_eq in H
  | H : (_ <? _) = true |- _ => apply Z.ltb_lt in H
  | H : (_ <? _) = false |- _ => apply Z.ltb_ge in H
  | H : (_ <=? _) = true |- _ => apply Z.leb_le in H
  | H : (_ <=? _) = false |- _ => apply Z.leb_gt in H
  end.

Lemma IsSpace_spec r :
  unicode.IsSpace r = true ->
  9 <= r <= 13 \/ r = 32 \/ r = 0x85 \/ r = 0xA0 \/ r = 0x1680 \/ 0x2000 <= r <= 0x200A
  \/ r = 0x2028 \/ r = 0x2029 \/ r = 0x202F \/ r = 0x205F \/ r = 0x3000.
Proof.
  unfold unicode.IsSpace. destruct (utf8.in_range _ _ _); intros Hs; bools; lia.
Qed.

Ltac encoding := apply list_elem_of_In; simpl; repeat first [by left | right].

(** A rune that [DecodeRune] reads and [IsSpace] accepts is written in
    the text as one of the white-space encodings. *)
Lemma DecodeRune_space s r size :
  utf8.DecodeRune s = (r, size) -> unicode.IsSpace r = true ->
  exists c rest, c ∈ white_space_encodings /\ s = (c ++ rest)%list /\ length c = size.
Proof.
  destruct s as [|b0 t]; [by intros [= <- <-]|]. unfold utf8.DecodeRune.
  destruct (Z.ltb_spec b0 utf8.RuneSelf) as [Hlt|Hge].
  { intros [= <- <-] Hs%IsSpace_spec. unfold utf8.RuneSelf in Hlt.
    exists [b0], t. split; [|done].
    assert (b0 = 9 \/ b0 = 10 \/ b0 = 11 \/ b0 = 12 \/ b0 = 13 \/ b0 = 32) as Hb by lia.
    destruct Hb as [-> | [-> | [-> | [-> | [-> | ->]]]]]; encoding. }
  destruct (utf8.first b0) as [[sz [lo hi]]|] eqn:Hf; [|by intros [= <- <-]].
  apply first_spec in Hf as (Hlo & Hhi & Hf).
  destruct (length (b0 :: t) <? sz)%nat; [by intros [= <- <-]|].
  destruct Hf as [[-> Hb0] | [(-> & Hb0 & He0) | (-> & Hb0 & Hf0)]].
  - destruct t as [|b1 t]; [by intros [= <- <-]|].
    destruct (utf8.in_range lo hi b1) eqn:H1; [|by intros [= <- <-]].
    apply in_range_spec in H1. rewrite decode2 by lia.
    intros [= <- <-] Hs%IsSpace_spec. exists [b0; b1], t. split; [|done].
    assert (b0 = 0xC2 /\ (b1 = 0x85 \/ b1 = 0xA0)) as [-> [-> | ->]] by lia; encoding.
  - destruct t as [|b1 [|b2 t]]; [by intros [= <- <-]..|].
    destruct (utf8.in_range lo hi b1 && utf8.is_cont b2) eqn:H1; [|by intros [= <- <-]].
    bools. rewrite decode3 by lia.
    intros [= <- <-] Hs%IsSpace_spec. exists [b0; b1; b2], t. split; [|done].
    destruct Hs as [Hs | [Hs | [Hs | [Hs | [Hs | [Hs | [Hs | [Hs | [Hs | [Hs | Hs]]]]]]]]]];
      try lia.
    + assert (b0 = 0xE1 /\ b1 = 0x9A /\ b2 = 0x80) as (-> & -> & ->) by lia. encoding.
    + assert (b0 = 0xE2 /\ b1 = 0x80) as (-> & ->) by lia.
      assert (b2 = 0x80 \/ b2 = 0x81 \/ b2 = 0x82 \/ b2 = 0x83 \/ b2 = 0x84 \/ b2 = 0x85
              \/ b2 = 0x86 \/ b2 = 0x87 \/ b2 = 0x88 \/ b2 = 0x89 \/ b2 = 0x8A) as Hc by lia.
      destruct Hc as [-> | [-> | [-> | [-> | [-> | [-> | [-> | [-> | [-> | [-> | ->]]]]]]]]]];
        encoding.
    + assert (b0 = 0xE2 /\ b1 = 0x80 /\ b2 = 0xA8) as (-> & -> & ->) by lia. encoding.
    + assert (b0 = 0xE2 /\ b1 = 0x80 /\ b2 = 0xA9) as (-> & -> & ->) by lia. encoding.
    + assert (b0 = 0xE2 /\ b1 = 0x80 /\ b2 = 0xAF) as (-> & -> & ->) by lia. encoding.
    + assert (b0 = 0xE2 /\ b1 = 0x81 /\ b2 = 0x9F) as (-> & -> & ->) by lia. encoding.
    + assert (b0 = 0xE3 /\ b1 = 0x80 /\ b2 = 0x80) as (-> & -> & ->) by lia. encoding.
  - destruct t as [|b1 [|b2 [|b3 t]]]; [by intros [= <- <-]..|].
    destruct (utf8.in_range lo hi b1 && utf8.is_cont b2 && utf8.is_cont b3) eqn:H1;
      [|by intros [= <- <-]].
    bools. rewrite decode4 by lia.
    intros [= <- <-] Hs%IsSpace_spec. lia.
Qed.

(** The other way round: a white-space encoding at the head of a text is
    read by [DecodeRune] whole, as a rune that [IsSpace] accepts. *)
Lemma DecodeRune_encoding c rest :
  c ∈ white_space_encodings ->
  exists r, utf8.DecodeRune (c ++ rest) = (r, length c) /\ unicode.IsSpace r = true.
Proof.
  intros Hc. apply list_elem_of_In in Hc. simpl in Hc.
  repeat (destruct Hc as [<-|Hc]; [eexists; split; reflexivity|]). done.
Qed.

Lemma encoding_shape c :
  c ∈ white_space_encodings ->
  (exists b, c = [b] /\ strings_trim.asciiSpace b = true)
  \/ (exists b0 b1, c = [b0; b1] /\ utf8.RuneStart b0 = true /\ (b0 <? utf8.RuneSelf) = false
                    /\ (b1 <? utf8.RuneSelf) = false)
  \/ (exists b0 b1 b2, c = [b0; b1; b2] /\ utf8.RuneStart b0 = true
                       /\ (b0 <? utf8.RuneSelf) = false
                       /\ utf8.RuneStart b1 = false /\ (b2 <? utf8.RuneSelf) = false).
Proof.
  intros Hc. apply list_elem_of_In in Hc. simpl in Hc.
  repeat (destruct Hc as [<-|Hc];
    [first [left; eexists; split; reflexivity
           | right; left; do 2 eexists; repeat split; reflexivity
           | right; right; do 3 eexists; repeat split; reflexivity]|]).
  done.
Qed.

(** The first byte of a white-space encoding is no continuation byte. *)
Lemma encoding_head c :
  c ∈ white_space_encodings ->
  exists b t, c = b :: t /\ utf8.in_range 0x80 0xBF b = false.
Proof.
  intros Hc. apply list_elem_of_In in Hc. simpl in Hc.
  repeat (destruct Hc as [<-|Hc]; [do 2 eexists; split; reflexivity|]). done.
Qed.

Lemma white_space_concat a b : white_space a -> white_space b -> white_space (a ++ b).
Proof.
  induction 1 as [|c rest Hc Hr IH]; intros Hb; [done|].
  rewrite <- app_assoc. constructor; auto.
Qed.

Lemma white_space_one c : c ∈ white_space_encodings -> white_space c.
Proof. intros Hc. rewrite <- (app_nil_r c). by constructor; [|constructor]. Qed.

Lemma white_space_head y :
  white_space y -> y = [] \/ exists b t, y = b :: t /\ utf8.in_range 0x80 0xBF b = false.
Proof.
  destruct 1 as [|c rest Hc _]; [by left|right].
  destruct (encoding_head c Hc) as (b & t & -> & Hb). by exists b, (t ++ rest)%list.
Qed.

Lemma indexFunc_from_cons f truth b0 t1 i :
  strings_trim.indexFunc_from f truth (b0 :: t1) i
  = let '(r, size) := utf8.DecodeRune (b0 :: t1) in
    if Bool.eqb (f r) truth then i
    else match size, t1 with
         | 2%nat, _ :: t2 => strings_trim.indexFunc_from f truth t2 (i + 2)
         | 3%nat, _ :: _ :: t3 => strings_trim.indexFunc_from f truth t3 (i + 3)
         | 4%nat, _ :: _ :: _ :: t4 => strings_trim.indexFunc_from f truth t4 (i + 4)
         | _, _ => strings_trim.indexFunc_from f truth t1 (i + 1)
         end.
Proof. reflexivity. Qed.

Lemma not_begins_nil : ~ begins_with_space [].
Proof.
  intros (c & rest & Hc & Heq). destruct (encoding_head c Hc) as (b & t & -> & _). done.
Qed.

Lemma not_ends_nil : ~ ends_with_space [].
Proof.
  intros (front & c & Hc & Heq). destruct (encoding_head c Hc) as (b & t & -> & _).
  by destruct front.
Qed.

(** [indexFunc] with [IsSpace] walks over white-space encodings and stops
    at the first place where none begins. *)
Lemma indexFunc_from_space n : forall s i,
  (length s <= n)%nat ->
  (strings_trim.indexFunc_from unicode.IsSpace false s i = -1 /\ white_space s)
  \/ exists a t, s = (a ++ t)%list /\ white_space a
       /\ strings_trim.indexFunc_from unicode.IsSpace false s i = i + Z.of_nat (length a)
       /\ t <> [] /\ ~ begins_with_space t.
Proof.
  induction n as [|n IH]; intros s i Hn.
  { destruct s; [|simpl in Hn; lia]. left. split; [done|constructor]. }
  destruct s as [|b0 t1]; [left; split; [done|constructor]|].
  rewrite indexFunc_from_cons.
  destruct (utf8.DecodeRune (b0 :: t1)) as [r size] eqn:Hd.
  destruct (unicode.IsSpace r) eqn:Hs; simpl Bool.eqb; cbv iota.
  - destruct (DecodeRune_space _ _ _ Hd Hs) as (c & rest & Hc & Heq & Hlen).
    assert (exists k, strings_trim.indexFunc_from unicode.IsSpace false rest (i + Z.of_nat size) = k
              /\ match size, t1 with
                 | 2%nat, _ :: t2 => strings_trim.indexFunc_from unicode.IsSpace false t2 (i + 2)
                 | 3%nat, _ :: _ :: t3 => strings_trim.indexFunc_from unicode.IsSpace false t3 (i + 3)
                 | 4%nat, _ :: _ :: _ :: t4 => strings_trim.indexFunc_from unicode.IsSpace false t4 (i + 4)
                 | _, _ => strings_trim.indexFunc_from unicode.IsSpace false t1 (i + 1)
                 end = k) as (k & Hk & ->).
    { eexists. split; [done|].
      destruct (encoding_shape c Hc) as [(b & -> & _) | [(c0 & c1 & -> & _)
        | (c0 & c1 & c2 & -> & _)]]; simpl in Hlen; subst size; by simplify_eq/=. }
    assert (length rest <= n)%nat as Hr.
    { apply (f_equal length) in Heq. rewrite length_app in Heq. simpl in Heq, Hn.
      destruct (encoding_head c Hc) as (? & ? & -> & _). simpl in Heq. lia. }
    destruct (IH rest (i + Z.of_nat size) Hr) as [[Hm Hw] | (a & t & Hrest & Ha & Hi & Ht & Hb)].
    + left. split; [congruence|]. rewrite Heq. by constructor.
    + right. exists (c ++ a)%list, t. split; [by rewrite Heq, Hrest, app_assoc|].
      split; [by constructor|]. split; [|done].
      rewrite <- Hk, Hi, length_app. lia.
  - right. exists [], (b0 :: t1). split; [done|]. split; [constructor|].
    split; [simpl; lia|]. split; [done|].
    intros (c & rest & Hc & Heq). destruct (DecodeRune_encoding c rest Hc) as (r' & Hd' & Hs').
    rewrite <- Heq, Hd in Hd'. congruence.
Qed.

Lemma TrimLeftFunc_space s :
  exists lead, s = (lead ++ strings_trim.TrimLeftFunc s unicode.IsSpace)%list
    /\ white_space lead
    /\ ~ begins_with_space (strings_trim.TrimLeftFunc s unicode.IsSpace).
Proof.
  unfold strings_trim.TrimLeftFunc, strings_trim.indexFunc.
  destruct (indexFunc_from_space (length s) s 0 (le_n _))
    as [[-> Hw] | (a & t & Hs & Ha & -> & Ht & Hb)].
  - exists s. rewrite app_nil_r. split; [done|]. split; [done|]. apply not_begins_nil.
  - destruct (Z.eqb_spec (0 + Z.of_nat (length a)) (-1)); [lia|].
    rewrite Z.add_0_l, Nat2Z.id, Hs, drop_app_length. by exists a.
Qed.

Lemma scan_start_S fuel s start lim :
  strings_trim.scan_start (S fuel) s start lim
  = if start <? lim then start
    else match s !! Z.to_nat start with
         | Some b => if utf8.RuneStart b then start
                     else strings_trim.scan_start fuel s (start - 1) lim
         | None => start
         end.
Proof. reflexivity. Qed.

(** A byte followed by no continuation byte is read alone. *)
Lemma DecodeRune_alone b y :
  (y = [] \/ exists b1 t, y = b1 :: t /\ utf8.in_range 0x80 0xBF b1 = false) ->
  (utf8.DecodeRune (b :: y)).2 = 1%nat.
Proof.
  intros Hy. unfold utf8.DecodeRune.
  destruct (b <? utf8.RuneSelf); [done|].
  destruct (utf8.first b) as [[sz [lo hi]]|] eqn:Hf; [|done].
  destruct (length (b :: y) <? sz)%nat; [done|].
  apply first_spec in Hf as (Hlo & Hhi & Hf).
  destruct Hy as [-> | (b1 & t & -> & Hb1)].
  { by destruct Hf as [[-> _] | [(-> & _) | (-> & _)]]. }
  assert (utf8.in_range lo hi b1 = false) as Hr.
  { apply not_true_iff_false. rewrite in_range_spec.
    apply not_true_iff_false in Hb1. rewrite in_range_spec in Hb1. lia. }
  destruct Hf as [[-> _] | [(-> & _) | (-> & _)]]; rewrite ?Hr; simpl;
    repeat case_match; done.
Qed.

(** A sequence of two bytes or more that is read whole is read the same
    with any text after it. *)
Lemma DecodeRune_whole x y r size :
  utf8.DecodeRune x = (r, size) -> length x = size -> (2 <= size)%nat ->
  utf8.DecodeRune (x ++ y) = (r, size).
Proof.
  intros Hd Hlen Hsize. destruct x as [|b0 t]; [simpl in Hlen; lia|].
  revert Hd. simpl app. unfold utf8.DecodeRune.
  destruct (b0 <? utf8.RuneSelf); [intros [= <- <-]; lia|].
  destruct (utf8.first b0) as [[sz [lo hi]]|] eqn:Hf; [|intros [= <- <-]; lia].
  apply first_spec in Hf as (_ & _ & Hf).
  destruct (Nat.ltb_spec (length (b0 :: t)) sz) as [|Hsz]; [intros [= <- <-]; lia|].
  destruct (Nat.ltb_spec (length (b0 :: t ++ y)) sz) as [Hsz'|_].
  { simpl in Hsz, Hsz'. rewrite length_app in Hsz'. lia. }
  destruct Hf as [[-> _] | [(-> & _) | (-> & _)]];
    destruct t as [|b1 [|b2 [|b3 t]]]; simpl in Hsz; try lia; simpl app;
    repeat case_match; intros [= <- <-]; simpl in Hlen, Hsize; first [lia | done].
Qed.

Lemma last_app_cons {A} (l : list A) x y : last (l ++ x :: y) = last (x :: y).
Proof. induction l as [|a [|b l]]; simpl in *; done. Qed.

(** [DecodeLastRune] on a text that ends with a white-space encoding
    reads that encoding. *)
Lemma DecodeLastRune_encoding front c :
  c ∈ white_space_encodings ->
  exists r, strings_trim.DecodeLastRune (front ++ c) = (r, length c)
            /\ unicode.IsSpace r = true.
Proof.
  intros Hc. destruct (DecodeRune_encoding c [] Hc) as (r & Hd & Hs).
  rewrite app_nil_r in Hd. exists r. split; [|done].
  unfold strings_trim.DecodeLastRune.
  destruct (encoding_shape c Hc) as [(b & -> & Hb) | [(c0 & c1 & -> & H0 & Hn0 & Hn1)
    | (c0 & c1 & c2 & -> & H0 & Hn0 & H1 & Hn2)]]; rewrite last_app_cons; simpl last; cbv beta iota.
  - apply asciiSpace_ascii in Hb. unfold utf8.RuneSelf in *.
    apply Z.leb_gt in Hb. destruct (Z.ltb_spec b 128); [|lia].
    simpl in Hd. unfold utf8.RuneSelf in Hd. destruct (Z.ltb_spec b 128); [|lia].
    by simplify_eq.
  - rewrite Hn1, length_app. simpl length. unfold utf8.UTFMax.
    replace (Z.of_nat (length front + 2) - 2) with (Z.of_nat (length front)) by lia.
    rewrite scan_start_S.
    match goal with |- context [?a <? ?b] => destruct (Z.ltb_spec a b); [lia|] end.
    rewrite Nat2Z.id, lookup_app_r by lia. rewrite Nat.sub_diag. simpl lookup. cbv beta iota. rewrite H0.
    rewrite Z.max_r, Nat2Z.id, drop_app_length, Hd by lia.
    simpl length.
    match goal with |- context [?a =? ?b] => destruct (Z.eqb_spec a b); [done|lia] end.
  - rewrite Hn2, length_app. simpl length. unfold utf8.UTFMax.
    replace (Z.of_nat (length front + 3) - 2) with (Z.of_nat (length front + 1)) by lia.
    rewrite scan_start_S.
    match goal with |- context [?a <? ?b] => destruct (Z.ltb_spec a b); [lia|] end.
    rewrite Nat2Z.id, lookup_app_r by lia.
    replace (length front + 1 - length front)%nat with 1%nat by lia. simpl lookup. cbv beta iota. rewrite H1.
    replace (Z.of_nat (length front + 1) - 1) with (Z.of_nat (length front)) by lia.
    rewrite scan_start_S.
    match goal with |- context [?a <? ?b] => destruct (Z.ltb_spec a b); [lia|] end.
    rewrite Nat2Z.id, lookup_app_r by lia. rewrite Nat.sub_diag. simpl lookup. cbv beta iota. rewrite H0.
    rewrite Z.max_r, Nat2Z.id, drop_app_length, Hd by lia.
    simpl length.
    match goal with |- context [?a =? ?b] => destruct (Z.eqb_spec a b); [done|lia] end.
Qed.

(** What [DecodeLastRune] reads as white space is a white-space encoding
    at the end of the text. *)
Lemma DecodeLastRune_space s r size :
  strings_trim.DecodeLastRune s = (r, size) -> unicode.IsSpace r = true ->
  exists front c, c ∈ white_space_encodings /\ s = (front ++ c)%list /\ length c = size.
Proof.
  unfold strings_trim.DecodeLastRune.
  destruct (last s) as [b|] eqn:Hl; [|by intros [= <- <-]].
  apply last_Some in Hl as [front ->].
  destruct (Z.ltb_spec b utf8.RuneSelf) as [Hlt|Hge].
  { intros [= <- <-] Hs. exists front, [b]. split; [|done].
    destruct (DecodeRune_space [b] b 1) as (c & rest & Hc & Heq & Hlen); [|done|].
    - simpl. by destruct (Z.ltb_spec b utf8.RuneSelf); [|lia].
    - destruct c as [|? [|]]; simplify_eq/=. done. }
  set (start := Z.max 0 _).
  destruct (utf8.DecodeRune _) as [r' size'] eqn:Hd.
  destruct (Z.eqb_spec (start + Z.of_nat size') (Z.of_nat (length (front ++ [b]))))
    as [He|]; [|by intros [= <- <-]].
  intros [= <- <-] Hs.
  destruct (DecodeRune_space _ _ _ Hd Hs) as (c & rest & Hc & Heq & Hlen).
  assert (0 <= start) by (unfold start; lia).
  assert (rest = []) as ->.
  { apply (f_equal length) in Heq. rewrite length_drop, !length_app in Heq.
    rewrite length_app in He. destruct rest; [done|]. simpl in Heq, He. lia. }
  rewrite app_nil_r in Heq. exists (take (Z.to_nat start) (front ++ [b])), c.
  split; [done|]. split; [|done]. by rewrite <- Heq, take_drop.
Qed.

(** Reading forward from the place where [DecodeLastRune] found the last
    rune of [x] gives the same width, whatever white space follows. *)
Lemma DecodeLastRune_forward x y r size :
  x <> [] -> strings_trim.DecodeLastRune x = (r, size) ->
  (y = [] \/ exists b1 t, y = b1 :: t /\ utf8.in_range 0x80 0xBF b1 = false) ->
  (1 <= size <= length x)%nat
  /\ exists b, ((x ++ y)%list : list Z) !! (length x - size)%nat = Some b
       /\ (if utf8.RuneSelf <=? b
           then (utf8.DecodeRune (drop (length x - size) (x ++ y)%list)).2 else 1%nat) = size.
Proof.
  intros Hx Hd Hy. revert Hd. unfold strings_trim.DecodeLastRune.
  destruct (last x) as [bl|] eqn:Hl; [|by apply last_None in Hl].
  apply last_Some in Hl as [front ->]. clear Hx.
  rewrite length_app. simpl length.
  destruct (Z.ltb_spec bl utf8.RuneSelf) as [Hlt|Hge].
  { intros [= <- <-]. split; [lia|]. exists bl.
    replace (length front + 1 - 1)%nat with (length front) by lia.
    rewrite <- app_assoc, lookup_app_r by lia. rewrite Nat.sub_diag. split; [done|].
    by destruct (Z.leb_spec utf8.RuneSelf bl); [lia|]. }
  set (start := Z.max 0 (strings_trim.scan_start _ _ _ _)).
  assert (0 <= start < Z.of_nat (length front + 1)) as Hstart.
  { pose proof (scan_start_le utf8.UTFMax (front ++ [bl]) (Z.of_nat (length front + 1) - 2)
                  (Z.max 0 (Z.of_nat (length front + 1) - Z.of_nat utf8.UTFMax))) as Hle.
    unfold start. lia. }
  destruct (utf8.DecodeRune _) as [r' size'] eqn:Hd.
  destruct (Z.eqb_spec (start + Z.of_nat size') (Z.of_nat (length front + 1))) as [He|_];
    intros [= <- <-].
  - split; [lia|].
    replace (length front + 1 - size')%nat with (Z.to_nat start) by lia.
    rewrite drop_app_le by (rewrite length_app; simpl; lia).
    rewrite lookup_app_l by (rewrite length_app; simpl; lia).
    destruct (drop (Z.to_nat start) (front ++ [bl])) as [|b x'] eqn:Hdrop.
    { apply (f_equal length) in Hdrop. rewrite length_drop, length_app in Hdrop.
      simpl in Hdrop. lia. }
    assert (length (b :: x') = size') as Hlen.
    { rewrite <- Hdrop, length_drop, length_app. simpl. lia. }
    exists b. split.
    { rewrite <- (take_drop (Z.to_nat start) (front ++ [bl])), Hdrop.
      rewrite lookup_app_r by (rewrite length_take; lia).
      rewrite length_take, length_app. simpl length.
      by replace (Z.to_nat start - Z.to_nat start `min` (length front + 1))%nat with 0%nat by lia. }
    destruct (Z.leb_spec utf8.RuneSelf b) as [Hb|Hb].
    + destruct (Nat.le_gt_cases 2 size') as [H2|H1].
      * by rewrite (DecodeRune_whole _ y _ _ Hd Hlen H2).
      * destruct x'; [|simpl in Hlen; lia]. simpl in Hlen. subst size'.
        by apply DecodeRune_alone.
    + revert Hd. simpl. destruct (Z.ltb_spec b utf8.RuneSelf); [|lia]. by intros [= <- <-].
  - split; [lia|]. exists bl.
    replace (length front + 1 - 1)%nat with (length front) by lia.
    rewrite <- app_assoc, lookup_app_r by lia. rewrite Nat.sub_diag. split; [done|].
    destruct (Z.leb_spec utf8.RuneSelf bl); [|lia].
    rewrite drop_app_length. by apply DecodeRune_alone.
Qed.

Lemma lastIndexFunc_from_S fuel s f truth i :
  strings_trim.lastIndexFunc_from (S fuel) s f truth i
  = if (i =? 0)%nat then -1
    else
      let '(r, size) := strings_trim.DecodeLastRune (take i s) in
      let i' := (i - size)%nat in
      if Bool.eqb (f r) truth then Z.of_nat i'
      else strings_trim.lastIndexFunc_from fuel s f truth i'.
Proof. reflexivity. Qed.

(** [lastIndexFunc] with [IsSpace] walks back over white-space encodings
    and stops at the first place where none ends. *)
Lemma lastIndexFunc_from_space s : forall fuel i,
  (i <= fuel)%nat -> (i <= length s)%nat -> white_space (drop i s) ->
  exists j, (j <= i)%nat /\ white_space (drop j s) /\ ~ ends_with_space (take j s)
    /\ strings_trim.lastIndexFunc_from fuel s unicode.IsSpace false i
       = if (j =? 0)%nat then -1
         else Z.of_nat (j - (strings_trim.DecodeLastRune (take j s)).2).
Proof.
  induction fuel as [|fuel IH]; intros i Hf Hi Hw.
  { assert (i = 0%nat) as -> by lia. exists 0%nat. split; [done|]. split; [done|].
    split; [apply not_ends_nil|done]. }
  rewrite lastIndexFunc_from_S. destruct (Nat.eqb_spec i 0) as [->|Hi0].
  { exists 0%nat. split; [done|]. split; [done|]. split; [apply not_ends_nil|done]. }
  destruct (strings_trim.DecodeLastRune (take i s)) as [r size] eqn:Hd.
  destruct (unicode.IsSpace r) eqn:Hs; simpl Bool.eqb; cbv beta iota zeta.
  - destruct (DecodeLastRune_space _ _ _ Hd Hs) as (front & c & Hc & Heq & Hlen).
    assert (length front + size = i)%nat as Hfront.
    { apply (f_equal length) in Heq. rewrite length_take, length_app in Heq. lia. }
    assert (drop (i - size) s = c ++ drop i s)%list as Hdrop.
    { rewrite <- (take_drop i s) at 1. rewrite Heq, <- app_assoc.
      replace (i - size)%nat with (length front) by lia. by rewrite drop_app_length. }
    destruct (encoding_head c Hc) as (? & ? & -> & _). simpl in Hlen.
    destruct (IH (i - size)%nat) as (j & Hj & Hwj & He & Hres); [lia..| |].
    { rewrite Hdrop. by constructor. }
    exists j. split; [lia|]. done.
  - exists i. split; [done|]. split; [done|]. split.
    + intros (front & c & Hc & Heq).
      destruct (DecodeLastRune_encoding front c Hc) as (r' & Hd' & Hs').
      rewrite <- Heq, Hd in Hd'. congruence.
    + destruct (Nat.eqb_spec i 0); [done|]. by rewrite Hd.
Qed.

Lemma TrimRightFunc_space s :
  exists trail, s = (strings_trim.TrimRightFunc s unicode.IsSpace ++ trail)%list
    /\ white_space trail
    /\ ~ ends_with_space (strings_trim.TrimRightFunc s unicode.IsSpace).
Proof.
  destruct (lastIndexFunc_from_space s (length s) (length s))
    as (j & Hj & Hw & He & Hres); [done..|rewrite drop_all; constructor|].
  assert (strings_trim.TrimRightFunc s unicode.IsSpace = take j s) as ->.
  { unfold strings_trim.TrimRightFunc, strings_trim.lastIndexFunc. rewrite Hres.
    destruct (Nat.eqb_spec j 0) as [->|Hj0]; [done|].
    destruct (strings_trim.DecodeLastRune (take j s)) as [r size] eqn:Hd.
    destruct (DecodeLastRune_forward (take j s) (drop j s) r size) as (Hsize & b & Hb & Hwid);
      [|done|by apply white_space_head|].
    { intros Ht. apply (f_equal length) in Ht. rewrite length_take in Ht. simpl in Ht. lia. }
    rewrite take_drop, length_take in Hb, Hwid. rewrite length_take in Hsize.
    replace (j `min` length s)%nat with j in * by lia. simpl snd.
    destruct (Z.leb_spec 0 (Z.of_nat (j - size))); [|lia].
    rewrite Nat2Z.id, Hb.
    destruct (utf8.RuneSelf <=? b); f_equal; lia. }
  exists (drop j s). by rewrite take_drop.
Qed.

Lemma asciiSpace_encoding c : strings_trim.asciiSpace c = true -> [c] ∈ white_space_encodings.
Proof.
  unfold strings_trim.asciiSpace. intros H.
  repeat (apply orb_prop in H as [H|H]); apply Z.eqb_eq in H; subst; encoding.
Qed.

Lemma white_space_ascii a :
  Forall (fun c => strings_trim.asciiSpace c = true) a -> white_space a.
Proof.
  induction 1 as [|c a Hc _ IH]; [constructor|].
  apply (white_space_app [c]); [by apply asciiSpace_encoding|done].
Qed.

(** The first and the last byte of a white-space encoding: an ASCII
    space or no ASCII byte at all. *)
Lemma encoding_ends c :
  c ∈ white_space_encodings ->
  exists b t front e, c = b :: t /\ c = (front ++ [e])%list
    /\ (strings_trim.asciiSpace b = true \/ utf8.RuneSelf <= b)
    /\ (strings_trim.asciiSpace e = true \/ utf8.RuneSelf <= e).
Proof.
  intros Hc. apply list_elem_of_In in Hc. simpl in Hc.
  repeat (destruct Hc as [<-|Hc];
    [first [exists 9, [], [], 9; by auto | exists 10, [], [], 10; by auto
           | exists 11, [], [], 11; by auto | exists 12, [], [], 12; by auto
           | exists 13, [], [], 13; by auto | exists 32, [], [], 32; by auto
           | eexists _, _, [_], _; split; [reflexivity|]; split; [reflexivity|];
             split; right; done
           | eexists _, _, [_; _], _; split; [reflexivity|]; split; [reflexivity|];
             split; right; done]|]).
  done.
Qed.

Lemma not_begins_prefix t u : ~ begins_with_space (t ++ u) -> ~ begins_with_space t.
Proof.
  intros Hn (c & rest & Hc & ->). apply Hn. exists c, (rest ++ u)%list.
  by rewrite app_assoc.
Qed.

Lemma not_begins_head b t :
  b < utf8.RuneSelf -> strings_trim.asciiSpace b = false -> ~ begins_with_space (b :: t).
Proof.
  intros Hlt Hb (c & rest & Hc & Heq).
  destruct (encoding_ends c Hc) as (b' & t' & _ & _ & -> & _ & [Hs|Hge] & _);
    simplify_eq/=; [congruence|lia].
Qed.

Lemma not_ends_last front e :
  e < utf8.RuneSelf -> strings_trim.asciiSpace e = false ->
  ~ ends_with_space (front ++ [e]).
Proof.
  intros Hlt He (front' & c & Hc & Heq).
  destruct (encoding_ends c Hc) as (_ & _ & f & e' & _ & -> & _ & [Hs|Hge]);
    rewrite app_assoc in Heq; apply app_inj_tail in Heq as [_ <-]; [congruence|lia].
Qed.

(** The first loop of [TrimSpace]. *)
Lemma scan_left_spec s : forall k,
  exists a rest, s = (a ++ rest)%list
    /\ Forall (fun c => strings_trim.asciiSpace c = true) a
    /\ ((strings_trim.scan_left s k = strings_trim.Stop (k + length a)
         /\ (rest = [] \/ exists c t, rest = c :: t /\ c < utf8.RuneSelf
                                      /\ strings_trim.asciiSpace c = false))
        \/ (strings_trim.scan_left s k = strings_trim.NonASCII (k + length a)
            /\ exists c t, rest = c :: t /\ utf8.RuneSelf <= c)).
Proof.
  induction s as [|c s IH]; intros k; simpl.
  { exists [], []. split; [done|]. split; [constructor|]. left. split; [|by left].
    f_equal. simpl. lia. }
  destruct (Z.leb_spec utf8.RuneSelf c) as [Hge|Hlt].
  { exists [], (c :: s). split; [done|]. split; [constructor|]. right.
    split; [f_equal; simpl; lia|]. by exists c, s. }
  destruct (strings_trim.asciiSpace c) eqn:Hc.
  - destruct (IH (S k)) as (a & rest & -> & Ha & Hres).
    exists (c :: a), rest. split; [done|]. split; [by constructor|].
    simpl length. replace (k + S (length a))%nat with (S k + length a)%nat by lia. done.
  - exists [], (c :: s). split; [done|]. split; [constructor|]. left.
    split; [f_equal; simpl; lia|]. right. by exists c, s.
Qed.

(** The second loop of [TrimSpace]. *)
Lemma scan_right_spec s start : forall stop,
  (start <= stop <= length s)%nat ->
  exists j, (start <= j <= stop)%nat
    /\ Forall (fun c => strings_trim.asciiSpace c = true) (drop j (take stop s))
    /\ ((strings_trim.scan_right s start stop = strings_trim.Stop j
         /\ (j = start \/ exists front e, take j s = (front ++ [e])%list
                            /\ e < utf8.RuneSelf /\ strings_trim.asciiSpace e = false))
        \/ (strings_trim.scan_right s start stop = strings_trim.NonASCII j
            /\ (start < j)%nat)).
Proof.
  induction stop as [|k IH]; intros Hs.
  { exists 0%nat. split; [lia|]. split; [constructor|]. left. split; [done|left; lia]. }
  rewrite scan_right_S. destruct (Nat.leb_spec (S k) start) as [Hle|Hgt].
  { exists (S k). split; [lia|]. rewrite drop_ge by (rewrite length_take; lia).
    split; [constructor|]. left. split; [done|left; lia]. }
  destruct (lookup_lt_is_Some_2 s k) as [c Hc]; [lia|]. rewrite Hc.
  assert (take (S k) s = take k s ++ [c])%list as Htake by by apply take_S_r.
  destruct (Z.leb_spec utf8.RuneSelf c) as [Hge|Hlt].
  { exists (S k). split; [lia|]. rewrite drop_ge by (rewrite length_take; lia).
    split; [constructor|]. right. split; [done|lia]. }
  destruct (strings_trim.asciiSpace c) eqn:Hsp.
  - destruct (IH ltac:(lia)) as (j & Hj & Hall & Hres).
    exists j. split; [lia|]. split; [|done].
    rewrite Htake, drop_app_le by (rewrite length_take; lia).
    apply Forall_app. split; [done|]. by constructor.
  - exists (S k). split; [lia|]. rewrite drop_ge by (rewrite length_take; lia).
    split; [constructor|]. left. split; [done|]. right. by exists (take k s), c.
Qed.

(** [TrimSpace] cuts white space, all of it, and nothing else, from both
    ends of any sequence of bytes. *)
Lemma TrimSpace_bytes_trimmed s : trimmed_of s (strings_trim.TrimSpace_bytes s).
Proof.
  unfold strings_trim.TrimSpace_bytes.
  destruct (scan_left_spec s 0) as (a & rest & -> & Ha & [[-> Hrest] | [-> Hrest]]);
    rewrite Nat.add_0_l.
  - destruct (scan_right_spec (a ++ rest) (length a) (length (a ++ rest)))
      as (j & Hj & Hall & Hres).
    { rewrite length_app. lia. }
    rewrite length_app in Hj.
    rewrite firstn_all, drop_app_ge in Hall by lia.
    assert (strings_trim.slice (a ++ rest) (length a) j = take (j - length a) rest) as Hsl.
    { unfold strings_trim.slice. by rewrite drop_app_length. }
    set (n := (j - length a)%nat) in *.
    assert ((0 < n)%nat ->
            exists c t, take n rest = c :: t
                        /\ c < utf8.RuneSelf /\ strings_trim.asciiSpace c = false) as Hhead.
    { intros Hlt. destruct Hrest as [-> | (c & t & -> & Hc)]; [simpl in Hj; lia|].
      exists c, (take (n - 1) t). split; [|done].
      by replace n with (S (n - 1)) at 1 by lia. }
    destruct Hres as [[-> Hstop] | [-> Hlt]]; rewrite Hsl.
    + exists a, (drop n rest). split; [by rewrite take_drop|].
      split; [by apply white_space_ascii|]. split; [by apply white_space_ascii|].
      destruct (Nat.eq_dec n 0%nat) as [Hn|Hn];
        [rewrite Hn, take_0; split; [apply not_begins_nil|apply not_ends_nil]|].
      destruct (Hhead ltac:(lia)) as (c & t & Hc & Hlt & Hsp). split.
      * rewrite Hc. by apply not_begins_head.
      * destruct Hstop as [-> | (front & e & Htake & He & Hsp')]; [lia|].
        assert (take n rest = drop (length a) (front ++ [e])) as ->.
        { rewrite <- Htake, take_app_ge, drop_app_length by lia. done. }
        assert (length a <= length front)%nat.
        { apply (f_equal length) in Htake. rewrite length_take, !length_app in Htake.
          simpl in Htake. lia. }
        rewrite drop_app_le by done. by apply not_ends_last.
    + destruct (TrimRightFunc_space (take n rest)) as (trail & Htrail & Hw & He).
      exists a, (trail ++ drop n rest)%list. split.
      { f_equal. rewrite (app_assoc _ trail), <- Htrail. by rewrite take_drop. }
      split; [by apply white_space_ascii|].
      split; [apply white_space_concat; [done|by apply white_space_ascii]|].
      split; [|done].
      destruct (Hhead ltac:(lia)) as (c & t & Hc & Hltc & Hsp).
      apply (not_begins_prefix _ trail). rewrite <- Htrail, Hc. by apply not_begins_head.
  - unfold strings_trim.TrimFunc. rewrite drop_app_length.
    destruct (TrimLeftFunc_space rest) as (lead & Hlead & Hw & Hb).
    destruct (TrimRightFunc_space (strings_trim.TrimLeftFunc rest unicode.IsSpace))
      as (trail & Htrail & Hw' & He).
    exists (a ++ lead)%list, trail. split.
    { rewrite <- app_assoc. f_equal. rewrite Hlead at 1. f_equal. exact Htrail. }
    split; [apply white_space_concat; [by apply white_space_ascii|done]|].
    split; [done|]. split; [|done].
    apply (not_begins_prefix _ trail). by rewrite <- Htrail.
Qed.

(** No white-space encoding is the beginning of another, nor the end of
    another. *)
Lemma encoding_prefix_free c1 c2 x y :
  c1 ∈ white_space_encodings -> c2 ∈ white_space_encodings ->
  (c1 ++ x = c2 ++ y)%list -> c1 = c2 /\ x = y.
Proof.
  intros H1 H2 Heq.
  destruct (DecodeRune_encoding c1 x H1) as (r1 & Hd1 & _).
  destruct (DecodeRune_encoding c2 y H2) as (r2 & Hd2 & _).
  rewrite Heq, Hd2 in Hd1. injection Hd1 as _ Hlen.
  by apply app_inj_1.
Qed.

Lemma encoding_suffix_free c1 c2 x y :
  c1 ∈ white_space_encodings -> c2 ∈ white_space_encodings ->
  (x ++ c1 = y ++ c2)%list -> x = y /\ c1 = c2.
Proof.
  intros H1 H2 Heq.
  destruct (DecodeLastRune_encoding x c1 H1) as (r1 & Hd1 & _).
  destruct (DecodeLastRune_encoding y c2 H2) as (r2 & Hd2 & _).
  rewrite Heq, Hd2 in Hd1. injection Hd1 as _ Hlen.
  by apply app_inj_2.
Qed.

(** The bytes of a white-space encoding after the first are continuation
    bytes. *)
Lemma encoding_tail c :
  c ∈ white_space_encodings ->
  exists b t, c = b :: t /\ Forall (fun b => utf8.in_range 0x80 0xBF b = true) t.
Proof.
  intros Hc. apply list_elem_of_In in Hc. simpl in Hc.
  repeat (destruct Hc as [<-|Hc];
    [do 2 eexists; split; [reflexivity|]; by repeat constructor|]).
  done.
Qed.

(** White space can be taken apart from its end as well. *)
Lemma white_space_snoc r :
  white_space r -> r = [] \/ exists r' c, r = (r' ++ c)%list /\ c ∈ white_space_encodings
                                         /\ white_space r'.
Proof.
  induction 1 as [|c rest Hc Hr IH]; [by left|right].
  destruct IH as [-> | (r' & c' & -> & Hc' & Hr')].
  - exists [], c. rewrite app_nil_r. split; [done|]. split; [done|constructor].
  - exists (c ++ r')%list, c'. rewrite app_assoc. split; [done|]. split; [done|].
    by constructor.
Qed.

(** A text that begins with no white space still begins with none when
    white space is put after it. *)
Lemma not_begins_app t r :
  t <> [] -> ~ begins_with_space t -> white_space r -> ~ begins_with_space (t ++ r).
Proof.
  intros Ht Hb Hr (c & rest & Hc & Heq).
  destruct (Nat.le_gt_cases (length c) (length t)) as [Hle|Hgt].
  - apply Hb. exists c, (drop (length c) t). split; [done|].
    rewrite <- (take_drop (length c) t) at 1. f_equal.
    apply (f_equal (take (length c))) in Heq.
    by rewrite take_app_le, take_app_length in Heq.
  - destruct (encoding_tail c Hc) as (b & tl & -> & Htl).
    assert (drop (length t) (b :: tl) ++ rest = r)%list as Hdrop.
    { apply (f_equal (drop (length t))) in Heq.
      by rewrite drop_app_length, drop_app_le in Heq by lia. }
    destruct t as [|b' t]; [done|]. simpl in Hdrop, Hgt.
    destruct (drop (length t) tl) as [|d ds] eqn:Hd.
    { apply (f_equal length) in Hd. rewrite length_drop in Hd. simpl in Hd. lia. }
    assert (utf8.in_range 0x80 0xBF d = true) as Hcont.
    { rewrite Forall_forall in Htl. apply Htl.
      apply (subseteq_drop (length t)). rewrite Hd. left. }
    destruct (white_space_head r Hr) as [-> | (b1 & t1 & -> & Hb1)]; simplify_eq/=.
    congruence.
Qed.

Lemma white_space_cancel_l l1 : forall l2 u1 u2,
  white_space l1 -> white_space l2 -> (l1 ++ u1 = l2 ++ u2)%list ->
  ~ begins_with_space u1 -> ~ begins_with_space u2 -> u1 = u2.
Proof.
  intros l2 u1 u2 H1. revert l2. induction H1 as [|c1 r1 Hc1 _ IH]; intros l2 H2 Heq Hb1 Hb2.
  - destruct H2 as [|c2 r2 Hc2 _]; [done|]. destruct Hb1.
    exists c2, (r2 ++ u2)%list. by rewrite app_assoc.
  - destruct H2 as [|c2 r2 Hc2 Hr2].
    + destruct Hb2. exists c1, (r1 ++ u1)%list. by rewrite app_assoc.
    + rewrite <- !app_assoc in Heq.
      destruct (encoding_prefix_free _ _ _ _ Hc1 Hc2 Heq) as [_ Heq']. eauto.
Qed.

Lemma white_space_cancel_r r1 : forall r2 u1 u2,
  white_space r1 -> white_space r2 -> (u1 ++ r1 = u2 ++ r2)%list ->
  ~ ends_with_space u1 -> ~ ends_with_space u2 -> u1 = u2.
Proof.
  induction r1 as [r1 IH] using (induction_ltof1 _ (@length Z)). unfold ltof in IH.
  intros r2 u1 u2 H1 H2 Heq He1 He2.
  destruct (white_space_snoc r1 H1) as [-> | (r1' & c1 & -> & Hc1 & H1')];
    destruct (white_space_snoc r2 H2) as [-> | (r2' & c2 & -> & Hc2 & H2')];
    rewrite ?app_nil_r in Heq.
  - done.
  - destruct He1. exists (u2 ++ r2')%list, c2. split; [done|]. by rewrite <- app_assoc.
  - destruct He2. exists (u1 ++ r1')%list, c1. split; [done|]. by rewrite <- Heq, app_assoc.
  - rewrite !app_assoc in Heq.
    destruct (encoding_suffix_free _ _ _ _ Hc1 Hc2 Heq) as [Heq' _].
    apply (IH r1') with r2'; try done.
    destruct (encoding_head c1 Hc1) as (? & ? & -> & _).
    rewrite length_app. simpl. lia.
Qed.

(** Only one text is a given text trimmed. *)
Lemma trimmed_of_unique s t1 t2 : trimmed_of s t1 -> trimmed_of s t2 -> t1 = t2.
Proof.
  intros (l1 & r1 & H1 & Hl1 & Hr1 & Hb1 & He1) (l2 & r2 & H2 & Hl2 & Hr2 & Hb2 & He2).
  rewrite H1 in H2. clear H1.
  assert (forall l r t l' r', white_space l -> white_space r ->
            white_space l' -> white_space r' -> t <> [] -> ~ begins_with_space t ->
            (l ++ [] ++ r = l' ++ t ++ r')%list -> False) as Hempty.
  { intros l r t l' r' Hl Hr Hl' Hr' Ht Hb Heq. apply Ht.
    assert ([] = t ++ r')%list as Hnil.
    { apply (white_space_cancel_l (l ++ r) l'); [by apply white_space_concat|done| |
        apply not_begins_nil | by apply not_begins_app].
      by rewrite app_nil_r. }
    by destruct t. }
  destruct t1 as [|b1 t1], t2 as [|b2 t2]; [done| | |].
  - by destruct (Hempty l1 r1 (b2 :: t2) l2 r2).
  - by destruct (Hempty l2 r2 (b1 :: t1) l1 r1).
  - assert (b1 :: t1 ++ r1 = b2 :: t2 ++ r2)%list as Hu.
    { apply (white_space_cancel_l l1 l2); try done;
        by apply (not_begins_app (_ :: _)). }
    by apply (white_space_cancel_r r1 r2).
Qed.

(** The same on strings. *)
Lemma bytes_range s : Forall (fun c => 0 <= c < 256) (bytes s).
Proof.
  unfold bytes. induction s as [|a s IH]; simpl; constructor; [|done].
  apply byte_of_range.
Qed.

Lemma bytes_TrimSpace s :
  bytes (strings_TrimSpace s) = strings_trim.TrimSpace_bytes (bytes s).
Proof.
  unfold strings_TrimSpace. apply bytes_of_bytes.
  destruct (TrimSpace_bytes_trimmed (bytes s)) as (lead & trail & Hs & _).
  pose proof (bytes_range s) as Hr. rewrite Hs in Hr.
  apply Forall_app in Hr as [_ Hr]. by apply Forall_app in Hr as [Hr _].
Qed.

Lemma TrimSpace_trimmed s : trimmed_of (bytes s) (bytes (strings_TrimSpace s)).
Proof. rewrite bytes_TrimSpace. apply TrimSpace_bytes_trimmed. Qed.

(** Texts that are not ASCII, and texts that are not UTF-8: "é" before
    a space and a line feed; "é" between U+3000 and U+00A0; a sequence
    cut short between two spaces, which is kept; a continuation byte
    after U+2000, which is kept; and white space alone. *)
Lemma TrimSpace_cases :
  strings_trim.TrimSpace_bytes [0xC3; 0xA9; 0x20; 0x0A] = [0xC3; 0xA9]
  /\ strings_trim.TrimSpace_bytes [0xE3; 0x80; 0x80; 0xC3; 0xA9; 0xC2; 0xA0] = [0xC3; 0xA9]
  /\ strings_trim.TrimSpace_bytes [0x20; 0xE2; 0x80; 0x20] = [0xE2; 0x80]
  /\ strings_trim.TrimSpace_bytes [0xE2; 0x80; 0x80; 0x80] = [0x80]
  /\ strings_trim.TrimSpace_bytes [0x20; 0xC2; 0x85; 0x09; 0xE2; 0x80; 0xA8] = [].
Proof. by vm_compute. Qed.

(** C3: a response whose status is outside 200..299, is not 404 and is
    not a 403 with X-RateLimit-Remaining "0" makes [fetchEvents] fail
    with a message made of the status text of the response and of the
    first 512 bytes of its body, these trimmed of the white space
    around them.  Trimmed, for every body: the 512 bytes are the text
    of the message between two runs of white-space characters, and that
    text neither begins nor ends with one; no other text is so.  For an
    ASCII body that is the body without the white space before its
    first and after its last other byte. *)
Theorem generic_api_error (username : string) (resp : Response)
    (Hreq : http_NewRequest_error (eventsURL username) = None)
    (Hdo : http_Do (mkRequest "GET" (eventsURL username)
                      (Header_Set ∅ "User-Agent" userAgent)) = inr resp)
    (Hnot2xx : ~ 200 <= StatusCode resp < 300)
    (Hnot404 : StatusCode resp <> 404)
    (Hnotlimited : ~ (StatusCode resp = 403
                      /\ Header_Get (Header resp) "X-RateLimit-Remaining" = "0")) :
  let body := string_take 512 (Body resp) in
  fetchEvents username
  = Failed ("github api error: " +:+ Status resp +:+ ": " +:+ strings_TrimSpace body)
  /\ (String.length body <= 512)%nat
  /\ Body resp = body +:+ string_drop 512 (Body resp)
  /\ (String.length (strings_TrimSpace body) <= String.length body)%nat
  /\ (isASCII (bytes body) = true ->
      strings_TrimSpace body = of_bytes (trim_ascii (bytes body)))
  /\ trimmed_of (bytes body) (bytes (strings_TrimSpace body))
  /\ (forall t, trimmed_of (bytes body) t -> t = bytes (strings_TrimSpace body)).
Proof.
  intros body. split_and!; [| | | |apply TrimSpace_ascii|apply TrimSpace_trimmed|].
  - rewrite (fetchEvents_classify _ _ Hreq Hdo). unfold classify.
    destruct (StatusCode resp =? 404) eqn:H404; [apply Z.eqb_eq in H404; done|].
    assert ((StatusCode resp <? 200) || (StatusCode resp >=? 300) = true) as ->.
    { apply orb_true_iff.
      destruct (Z.ltb_spec (StatusCode resp) 200); [by left|right].
      rewrite Z.geb_leb. apply Z.leb_le. lia. }
    destruct (StatusCode resp =? 403) eqn:H403; [|done].
    destruct (String.eqb (Header_Get (Header resp) "X-RateLimit-Remaining") "0") eqn:Hr;
      [|done].
    apply Z.eqb_eq in H403. apply String.eqb_eq in Hr. by destruct Hnotlimited.
  - apply string_take_length.
  - apply string_take_drop.
  - apply TrimSpace_length.
  - intros t Ht. apply (trimmed_of_unique (bytes body)); [done|apply TrimSpace_trimmed].
Qed.

(** ** main *)

Lemma selection_loop_count eventType limit events :
  1 <= limit <= int64_max ->
  (selection_loop eventType limit events 0).2
  = Z.of_nat (length (printed eventType limit events)).
Proof.
  intros Hl. unfold printed. rewrite selection_loop_spec by lia. simpl.
  by rewrite length_fmap.
Qed.

(** C8: once the events are fetched, the run ends with exit code 0 and
    nothing on the error stream.  An empty feed gives the one line
    "No recent public activity." and the loop is not run.  A feed that
    is not empty and of which the loop prints nothing gives one line,
    naming the type asked for when [--type] was given and
    "No printable events found." otherwise; the three notes differ from
    each other.  In any other case the output is the lines of the
    loop. *)
Theorem quiet_runs (type_flag : option string) (n_flag : option Z) (username : string)
    (events : list Event) (Hfetch : fetchEvents username = Events events) :
  let eventType := default "" type_flag in
  let lines := printed eventType (clamp (default 30 n_flag)) events in
  main type_flag n_flag [username]
  = match events, lines with
    | [], _ => mkOutcome ["No recent public activity."] [] 0
    | _ :: _, [] =>
      mkOutcome [if String.eqb eventType "" then "No printable events found."
                 else "No events of type " +:+ strconv_Quote eventType +:+ " found."]
                [] 0
    | _ :: _, _ :: _ => mkOutcome lines [] 0
    end
  /\ NoDup ["No recent public activity."; "No printable events found.";
            "No events of type " +:+ strconv_Quote eventType +:+ " found."].
Proof.
  intros eventType lines. split.
  - unfold main. rewrite Hfetch. fold eventType.
    destruct events as [|ev rest]; [done|].
    change (length (ev :: rest) =? 0)%nat with false. cbv iota.
    pose proof (clamp_range (default 30 n_flag)) as Hr.
    pose proof (selection_loop_count eventType (clamp (default 30 n_flag)) (ev :: rest)
                  ltac:(unfold int64_max; lia)) as Hcount.
    fold lines in Hcount. unfold lines, printed in *.
    destruct (selection_loop eventType (clamp (default 30 n_flag)) (ev :: rest) 0)
      as [shown count].
    simpl in Hcount |- *. subst count.
    destruct shown as [|l shown]; simpl.
    + by destruct (String.eqb eventType "").
    + by rewrite app_nil_r.
  - repeat constructor; rewrite ?elem_of_cons, ?elem_of_nil; intros Hc.
    + destruct Hc as [Hc|[Hc|[]]]; [discriminate Hc|].
      cbv in Hc. discriminate Hc.
    + destruct Hc as [Hc|[]]. cbv in Hc. discriminate Hc.
    + done.
Qed.

(** ** The cases of [main_test.go] *)

Lemma test_format_events :
  formatEvent test_push = ("Pushed 3 commit(s) to alice/repo", true)
  /\ formatEvent test_pr = ("Closed a pull request #7 “Feature” in alice/repo", true)
  /\ formatEvent test_watch = ("Starred alice/repo", true)
  /\ formatEvent (alice_event "UnknownEvent" None) = ("", false)
  /\ formatEvent (alice_event "ReleaseEvent" None)
     = ("Published or edited a release in alice/repo", true).
Proof. repeat split. Qed.

Lemma test_parseUnix :
  (parseUnix "1710000000").2 = None /\ IsZero (parseUnix "1710000000").1 = false.
Proof. split; reflexivity. Qed.

Lemma test_fetch_classes :
  classify (mkResponse 404 "404 Not Found" ∅ "404 page not found") = Failed "user not found"
  /\ classify bad_gateway = Failed "github api error: 502 Bad Gateway: bad gateway"
  /\ classify (rate_limited "1710000000")
     = Failed (rate_limit_msg +:+ " (resets at "
                 +:+ Local_Format_RFC1123 (time_Unix 1710000000) +:+ ")").
Proof. repeat split. Qed.

(** * Further properties *)

(** ** The selection loop *)

(** X1: the loop prints exactly the lines of the first qualifying
    events, as many as the clamped limit allows and in the order of the
    feed; its counter ends at the number of lines printed, which is the
    smaller of the limit and the number of qualifying events. *)
Theorem printed_exactly (eventType : string) (n_flag : option Z) (events : list Event) :
  let limit := clamp (default 30 n_flag) in
  let shown := take (Z.to_nat limit) (List.filter (qualifies eventType) events) in
  selection_loop eventType limit events 0
  = ((fun ev => "- " +:+ (formatEvent ev).1) <$> shown, Z.of_nat (length shown))
  /\ length (printed eventType limit events)
     = Nat.min (Z.to_nat limit) (length (List.filter (qualifies eventType) events)).
Proof.
  intros limit shown. pose proof (clamp_range (default 30 n_flag)) as Hr.
  split.
  - rewrite selection_loop_spec by (unfold int64_max; lia). simpl. by rewrite Z.sub_0_r.
  - rewrite printed_spec by (unfold int64_max; lia).
    by rewrite length_fmap, length_take.
Qed.

Lemma clamp_mono n m : n <= m -> clamp n <= clamp m.
Proof. rewrite !clamp_min_max. lia. Qed.

(** X2: a larger value of [--n] only adds lines at the end: the output
    of the loop for the smaller value is a prefix of its output for the
    larger one. *)
Theorem printed_grows_with_limit (eventType : string) (n m : Z) (events : list Event)
    (Hnm : n <= m) :
  printed eventType (clamp n) events `prefix_of` printed eventType (clamp m) events.
Proof.
  pose proof (clamp_range n) as Hn. pose proof (clamp_range m) as Hm.
  pose proof (clamp_mono n m Hnm) as Hle.
  rewrite !printed_spec by (unfold int64_max; lia).
  replace (Z.to_nat (clamp m))
    with (Z.to_nat (clamp n) + (Z.to_nat (clamp m) - Z.to_nat (clamp n)))%nat by lia.
  rewrite <- take_take_drop, fmap_app. by eexists.
Qed.

(** X3: once the limit is reached the loop stops: events behind a part
    of the feed that already holds as many qualifying events as the
    limit change nothing of what is printed. *)
Theorem printed_ignores_rest (eventType : string) (n : Z) (before after : list Event)
    (Hfull : clamp n <= Z.of_nat (length (List.filter (qualifies eventType) before))) :
  printed eventType (clamp n) (before ++ after) = printed eventType (clamp n) before.
Proof.
  pose proof (clamp_range n) as Hn.
  rewrite !printed_spec by (unfold int64_max; lia).
  rewrite List.filter_app, take_app_le by lia. reflexivity.
Qed.

Lemma qualifies_has_type eventType ev :
  eventType <> "" -> qualifies eventType ev = has_type eventType ev && qualifies "" ev.
Proof.
  intros Ht. apply String.eqb_neq in Ht. unfold qualifies, has_type. by rewrite Ht.
Qed.

Lemma filter_has_type eventType events :
  eventType <> "" ->
  List.filter (qualifies eventType) events
  = List.filter (qualifies "") (List.filter (has_type eventType) events).
Proof.
  intros Ht. induction events as [|ev events IH]; [done|].
  cbn [List.filter]. rewrite (qualifies_has_type _ ev Ht).
  destruct (has_type eventType ev); cbn [andb List.filter]; by rewrite IH.
Qed.

(** X4: running with [--type=T] prints what a run without filter prints
    on the feed reduced to its events of type [T]. *)
Theorem filter_is_prefilter (eventType : string) (n_flag : option Z) (events : list Event)
    (Hset : eventType <> "") :
  printed eventType (clamp (default 30 n_flag)) events
  = printed "" (clamp (default 30 n_flag)) (List.filter (has_type eventType) events).
Proof.
  pose proof (clamp_range (default 30 n_flag)) as Hr.
  rewrite !printed_spec by (unfold int64_max; lia).
  by rewrite filter_has_type.
Qed.

(** ** Which events are rendered *)

Lemma supported_cases type :
  supported type
  <-> type = "PushEvent" \/ type = "IssuesEvent" \/ type = "PullRequestEvent"
      \/ type = "WatchEvent" \/ type = "ForkEvent" \/ type = "CreateEvent"
      \/ type = "DeleteEvent" \/ type = "ReleaseEvent"
      \/ type = "PullRequestReviewCommentEvent" \/ type = "IssueCommentEvent".
Proof.
  clear unicode_To Local_Format_RFC1123 http_NewRequest_error http_Do Decode_events
    strconv_Quote usage.
  unfold supported, payload_types, plain_types. rewrite list_elem_of_In. simpl.
  intuition congruence.
Qed.

Lemma unsupported_not_rendered ev : ~ supported (Type_ ev) -> formatEvent ev = ("", false).
Proof.
  clear Local_Format_RFC1123 http_NewRequest_error http_Do Decode_events strconv_Quote usage.
  rewrite supported_cases. intros Hun. unfold formatEvent.
  repeat match goal with
         | |- context [String.eqb (Type_ ev) ?lit] =>
           destruct (String.eqb_spec (Type_ ev) lit) as [Heq|_];
           [exfalso; apply Hun; rewrite Heq; tauto|]
         end.
  reflexivity.
Qed.

Ltac other_type H :=
  destruct H as [[? ?]|[[? ?]|[[? ?]|[[? ?]|[? ?]]]]]; congruence.

Ltac rendered_case Heq :=
  split; [|done];
  split; [intros _; split; [apply supported_cases; rewrite Heq; tauto
                           |intros Hm; other_type Hm]
         |done].

Ltac skipped_case :=
  split; [|done];
  split; [done|intros [_ Hn]; exfalso; apply Hn; unfold malformed; auto 10].

(** X5: [formatEvent] renders an event exactly when its type is one of
    the ten it has a case for and, for the five types with payload
    fields, the payload decodes; an event it does not render gets the
    empty line. *)
Theorem rendered_iff (ev : Event) :
  ((formatEvent ev).2 = true <-> supported (Type_ ev) /\ ~ malformed ev)
  /\ ((formatEvent ev).2 = false -> (formatEvent ev).1 = "").
Proof.
  clear Local_Format_RFC1123 http_NewRequest_error http_Do Decode_events strconv_Quote usage.
  unfold formatEvent.
  destruct (String.eqb_spec (Type_ ev) "PushEvent") as [Heq|N1].
  { destruct (Unmarshal PushPayload_fields _ _) eqn:Hu; simpl;
      [rendered_case Heq | skipped_case]. }
  destruct (String.eqb_spec (Type_ ev) "IssuesEvent") as [Heq|N2].
  { destruct (Unmarshal IssuesPayload_fields _ _) eqn:Hu; simpl;
      [rendered_case Heq | skipped_case]. }
  destruct (String.eqb_spec (Type_ ev) "PullRequestEvent") as [Heq|N3].
  { destruct (Unmarshal PRPayload_fields _ _) eqn:Hu; simpl;
      [rendered_case Heq | skipped_case]. }
  destruct (String.eqb_spec (Type_ ev) "WatchEvent") as [Heq|N4].
  { destruct (Unmarshal WatchPayload_fields _ _) eqn:Hu; simpl;
      [destruct (String.eqb _ "started"); simpl; rendered_case Heq | skipped_case]. }
  destruct (String.eqb_spec (Type_ ev) "ForkEvent") as [Heq|N5].
  { destruct (Unmarshal ForkPayload_fields _ _) eqn:Hu; simpl;
      [rendered_case Heq | skipped_case]. }
  destruct (String.eqb_spec (Type_ ev) "CreateEvent") as [Heq|N6];
    [simpl; rendered_case Heq|].
  destruct (String.eqb_spec (Type_ ev) "DeleteEvent") as [Heq|N7];
    [simpl; rendered_case Heq|].
  destruct (String.eqb_spec (Type_ ev) "ReleaseEvent") as [Heq|N8];
    [simpl; rendered_case Heq|].
  destruct (String.eqb_spec (Type_ ev) "PullRequestReviewCommentEvent") as [Heq|N9];
    [simpl; rendered_case Heq|].
  destruct (String.eqb_spec (Type_ ev) "IssueCommentEvent") as [Heq|N10];
    [simpl; rendered_case Heq|].
  simpl. split; [|done]. split; [done|]. intros [Hs _].
  apply supported_cases in Hs. intuition congruence.
Qed.

Lemma rendered_nonempty ev : (formatEvent ev).2 = true -> (formatEvent ev).1 <> "".
Proof.
  unfold formatEvent.
  repeat case_match; simpl; try done; intros _ Hc;
    apply (f_equal String.length) in Hc; rewrite ?string_length_app in Hc;
    simpl in Hc; lia.
Qed.

(** X6: a line the loop prints is the marker of a line followed by a
    text that is never empty, as [formatEvent] gives no empty line to an
    event it renders. *)
Theorem printed_lines_marked (eventType : string) (n_flag : option Z)
    (events : list Event) :
  (forall ev, (formatEvent ev).2 = true -> (formatEvent ev).1 <> "")
  /\ Forall (fun line => exists text, line = "- " +:+ text /\ text <> "")
       (printed eventType (clamp (default 30 n_flag)) events).
Proof.
  split; [apply rendered_nonempty|].
  pose proof (clamp_range (default 30 n_flag)) as Hr.
  rewrite printed_spec by (unfold int64_max; lia).
  apply Forall_fmap, Forall_take.
  eapply Forall_impl; [apply filter_Forall|]. intros ev Hq. simpl.
  exists (formatEvent ev).1. split; [done|]. apply rendered_nonempty.
  unfold qualifies in Hq. by apply andb_prop in Hq as [_ Hq].
Qed.

Lemma filter_none {A} (f : A -> bool) (l : list A) :
  Forall (fun x => f x = false) l -> List.filter f l = [].
Proof.
  induction 1 as [|x l Hx _ IH]; [done|]. simpl. by rewrite Hx.
Qed.

Lemma unsupported_never_qualifies eventType ev :
  eventType <> "" -> ~ supported eventType -> qualifies eventType ev = false.
Proof.
  intros Ht Hun. unfold qualifies. apply String.eqb_neq in Ht. rewrite Ht. simpl.
  destruct (String.eqb_spec (Type_ ev) eventType) as [Heq|]; [|done].
  simpl. rewrite unsupported_not_rendered; [done|]. by rewrite Heq.
Qed.

(** X7: asking with [--type] for a type that [formatEvent] has no case
    for never prints an event: on a feed that is not empty the run
    prints the note that names the type, and nothing else. *)
Theorem unsupported_filter (eventType : string) (n_flag : option Z) (username : string)
    (events : list Event)
    (Hset : eventType <> "") (Hun : ~ supported eventType)
    (Hfetch : fetchEvents username = Events events) (Hfeed : events <> []) :
  main (Some eventType) n_flag [username]
  = mkOutcome ["No events of type " +:+ strconv_Quote eventType +:+ " found."] [] 0.
Proof.
  pose proof (clamp_range (default 30 n_flag)) as Hr.
  unfold main. rewrite Hfetch. destruct events as [|ev rest]; [done|].
  change (length (ev :: rest) =? 0)%nat with false. cbv iota.
  change (default "" (Some eventType)) with eventType.
  rewrite selection_loop_spec by (unfold int64_max; lia).
  rewrite filter_none
    by (apply Forall_forall; intros; by apply unsupported_never_qualifies).
  rewrite take_nil. simpl. apply String.eqb_neq in Hset. by rewrite Hset.
Qed.

(** ** The outcome of a run *)





Lemma clamp_idempotent n : clamp (Z.max 1 (Z.min 100 n)) = clamp n.
Proof. rewrite !clamp_min_max. lia. Qed.

(** X10: only the clamped value of [--n] matters: a run with [--n=v]
    is the run with [v] brought into 1..100, so that zero and negative
    values act as 1 and values above 100 as 100, and a run without the
    flag is the run with [--n=30]. *)
Theorem limit_is_clamped (type_flag : option string) (n : Z) (args : list string) :
  main type_flag (Some n) args = main type_flag (Some (Z.max 1 (Z.min 100 n))) args
  /\ main type_flag None args = main type_flag (Some 30) args.
Proof.
  split; [|reflexivity].
  unfold main. simpl. by rewrite clamp_idempotent.
Qed.

(** ** fetchEvents *)

(** X11: [fetchEvents] returns events in one case only: the request
    could be built, the transport gave a response, its status is in
    200..299 and its body decodes; the events are those decoded. *)
Theorem fetch_succeeds_iff (username : string) (events : list Event) :
  fetchEvents username = Events events
  <-> http_NewRequest_error (eventsURL username) = None
      /\ exists resp,
           http_Do (mkRequest "GET" (eventsURL username)
                      (Header_Set ∅ "User-Agent" userAgent)) = inr resp
           /\ 200 <= StatusCode resp < 300
           /\ Decode_events (Body resp) = inr events.
Proof.
  unfold fetchEvents.
  destruct (http_NewRequest_error (eventsURL username)) as [err|].
  { split; [done|]. by intros [? _]. }
  destruct (http_Do _) as [err|resp].
  { split; [done|]. by intros (_ & ? & ? & _). }
  unfold classify.
  destruct (Z.eqb_spec (StatusCode resp) 404) as [H404|H404].
  { split; [done|]. intros (_ & ? & [= <-] & ? & _). lia. }
  destruct (Z.ltb_spec (StatusCode resp) 200) as [Hlo|Hlo]; simpl;
    [|rewrite Z.geb_leb; destruct (Z.leb_spec 300 (StatusCode resp)) as [Hhi|Hhi]];
    destruct (Z.eqb_spec (StatusCode resp) 403) as [H403|H403];
    try destruct (String.eqb _ "0");
    try (split; [done|]; intros (_ & ? & [= <-] & ? & _); lia).
  all: try (exfalso; lia).
  all: destruct (Decode_events (Body resp)) as [err|decoded] eqn:Hd.
  all: split; [|intros (_ & ? & [= <-] & _ & ?); congruence].
  all: first [done | intros [= <-]; split; [done|]; by exists resp].
Qed.

Lemma prefix_app s rest : String.prefix s (s +:+ rest) = true.
Proof.
  induction s as [|a s IH]; [by destruct rest|].
  change (String.prefix (String a s) (String a (s +:+ rest)) = true).
  simpl. by destruct (ascii_dec a a).
Qed.

Lemma not_found_marks :
  String.prefix "rate limit exceeded" "user not found" = false
  /\ String.prefix "github api error: " "user not found" = false
  /\ String.prefix "decode failed: " "user not found" = false.
Proof. by split_and!. Qed.

Lemma rate_limit_marks rest :
  rate_limit_msg +:+ rest <> "user not found"
  /\ String.prefix "rate limit exceeded" (rate_limit_msg +:+ rest) = true
  /\ String.prefix "github api error: " (rate_limit_msg +:+ rest) = false
  /\ String.prefix "decode failed: " (rate_limit_msg +:+ rest) = false.
Proof. split_and!; try reflexivity. intros H. vm_compute in H. discriminate H. Qed.

Lemma api_error_marks rest :
  "github api error: " +:+ rest <> "user not found"
  /\ String.prefix "rate limit exceeded" ("github api error: " +:+ rest) = false
  /\ String.prefix "github api error: " ("github api error: " +:+ rest) = true
  /\ String.prefix "decode failed: " ("github api error: " +:+ rest) = false.
Proof.
  split_and!; try reflexivity; [|apply prefix_app].
  intros H. vm_compute in H. discriminate H.
Qed.

Lemma decode_marks rest :
  "decode failed: " +:+ rest <> "user not found"
  /\ String.prefix "rate limit exceeded" ("decode failed: " +:+ rest) = false
  /\ String.prefix "github api error: " ("decode failed: " +:+ rest) = false
  /\ String.prefix "decode failed: " ("decode failed: " +:+ rest) = true.
Proof.
  split_and!; try reflexivity; [|apply prefix_app].
  intros H. vm_compute in H. discriminate H.
Qed.

(** X12: when a response arrived and [fetchEvents] fails, the message
    tells the kind of failure apart: it is "user not found" exactly for
    status 404, starts with "rate limit exceeded" exactly for a 403
    whose X-RateLimit-Remaining is "0", starts with "github api error: "
    exactly for any other status outside 200..299, and starts with
    "decode failed: " exactly for a status in 200..299. *)
Theorem failure_told_by_message (username : string) (resp : Response) (msg : string)
    (Hreq : http_NewRequest_error (eventsURL username) = None)
    (Hdo : http_Do (mkRequest "GET" (eventsURL username)
                      (Header_Set ∅ "User-Agent" userAgent)) = inr resp)
    (Hfail : fetchEvents username = Failed msg) :
  (msg = "user not found" <-> StatusCode resp = 404)
  /\ (String.prefix "rate limit exceeded" msg = true
      <-> StatusCode resp = 403
          /\ Header_Get (Header resp) "X-RateLimit-Remaining" = "0")
  /\ (String.prefix "github api error: " msg = true
      <-> ~ 200 <= StatusCode resp < 300 /\ StatusCode resp <> 404
          /\ ~ (StatusCode resp = 403
                /\ Header_Get (Header resp) "X-RateLimit-Remaining" = "0"))
  /\ (String.prefix "decode failed: " msg = true <-> 200 <= StatusCode resp < 300).
Proof.
  clear unicode_To strconv_Quote usage.
  rewrite (fetchEvents_classify _ _ Hreq Hdo) in Hfail.
  destruct (Z.eq_dec (StatusCode resp) 404) as [H404|H404].
  { unfold classify in Hfail. rewrite H404 in Hfail. injection Hfail as <-.
    destruct not_found_marks as (-> & -> & ->). intuition (congruence || lia). }
  destruct (Z.eq_dec (StatusCode resp) 403) as [H403|H403];
    [destruct (String.eqb_spec (Header_Get (Header resp) "X-RateLimit-Remaining") "0")
       as [Hrem|Hrem]|].
  - rewrite (classify_rate_limited _ H403 Hrem) in Hfail. injection Hfail as <-.
    assert (exists rest, match strconv_ParseInt
                                 (Header_Get (Header resp) "X-RateLimit-Reset") with
                         | (sec, None) =>
                           if sec =? zero_instant then rate_limit_msg
                           else rate_limit_msg +:+ " (resets at "
                                  +:+ Local_Format_RFC1123 (time_Unix sec) +:+ ")"
                         | (_, Some _) => rate_limit_msg
                         end = rate_limit_msg +:+ rest) as [rest ->].
    { repeat case_match; by (eexists; reflexivity) || by exists "". }
    destruct (rate_limit_marks rest) as (? & -> & -> & ->).
    intuition (congruence || lia).
  - unfold classify in Hfail.
    destruct (Z.eqb_spec (StatusCode resp) 404); [done|].
    destruct (Z.eqb_spec (StatusCode resp) 403); [|done].
    destruct (String.eqb_spec (Header_Get (Header resp) "X-RateLimit-Remaining") "0");
      [done|].
    replace ((StatusCode resp <? 200) || (StatusCode resp >=? 300)) with true in Hfail
      by (rewrite H403; reflexivity).
    injection Hfail as <-.
    match goal with
    | |- context [String.prefix _ ("github api error: " +:+ ?rest)] =>
      destruct (api_error_marks rest) as (? & -> & -> & ->)
    end.
    intuition (congruence || lia).
  - unfold classify in Hfail.
    destruct (Z.eqb_spec (StatusCode resp) 404); [done|].
    destruct (Z.eqb_spec (StatusCode resp) 403); [done|].
    destruct (Z.ltb_spec (StatusCode resp) 200) as [Hlo|Hlo]; simpl in Hfail;
      [|rewrite Z.geb_leb in Hfail;
        destruct (Z.leb_spec 300 (StatusCode resp)) as [Hhi|Hhi]].
    + injection Hfail as <-.
      match goal with
      | |- context [String.prefix _ ("github api error: " +:+ ?rest)] =>
        destruct (api_error_marks rest) as (? & -> & -> & ->)
      end.
      intuition (congruence || lia).
    + injection Hfail as <-.
      match goal with
      | |- context [String.prefix _ ("github api error: " +:+ ?rest)] =>
        destruct (api_error_marks rest) as (? & -> & -> & ->)
      end.
      intuition (congruence || lia).
    + destruct (Decode_events (Body resp)) as [err|decoded]; [|done].
      injection Hfail as <-.
      destruct (decode_marks err) as (? & -> & -> & ->).
      intuition (congruence || lia).
Qed.

(** ** Numbers in and out *)

Lemma uint_digits d :
  Forall is_digit (bytes (NilEmpty.string_of_uint d))
  /\ (forall acc, decimal_from (Z.pos acc) (bytes (NilEmpty.string_of_uint d))
                  = Z.pos (Pos.of_uint_acc d acc))
  /\ decimal_from 0 (bytes (NilEmpty.string_of_uint d)) = Z.of_N (Pos.of_uint d).
Proof.
  induction d as [|d (IHd & IHa & IH0)|d (IHd & IHa & IH0)|d (IHd & IHa & IH0)
                 |d (IHd & IHa & IH0)|d (IHd & IHa & IH0)|d (IHd & IHa & IH0)
                 |d (IHd & IHa & IH0)|d (IHd & IHa & IH0)|d (IHd & IHa & IH0)
                 |d (IHd & IHa & IH0)].
  1: by split_and!.
  all: split_and!;
    [constructor; [unfold is_digit; vm_compute; split; discriminate | exact IHd]
    |intros acc; cbn [NilEmpty.string_of_uint Pos.of_uint_acc];
     change (bytes (String ?a ?s)) with (byte_of a :: bytes s); unfold decimal_from in *;
     cbn [foldl]; rewrite <- IHa; f_equal; vm_compute (byte_of _); lia
    |cbn [NilEmpty.string_of_uint Pos.of_uint];
     change (bytes (String ?a ?s)) with (byte_of a :: bytes s); unfold decimal_from in *;
     cbn [foldl]; vm_compute (byte_of _); first [exact IH0 | apply IHa]].
Qed.

Lemma uint_nonempty d : d <> Decimal.Nil -> bytes (NilEmpty.string_of_uint d) <> [].
Proof. by destruct d. Qed.

Lemma decimal_int64_fmt_d n : in_int64 n -> decimal_int64 (fmt_d n) n.
Proof.
  intros Hn. unfold fmt_d, decimal_int64. destruct n as [|p|p].
  - exists [], [48]. split_and!; auto. by repeat constructor.
  - pose proof (Unsigned.to_uint_nonnil p) as Hnil.
    pose proof (uint_digits (Pos.to_uint p)) as (Hd & _ & H0).
    exists [], (bytes (NilEmpty.string_of_uint (Pos.to_uint p))).
    split_and!; auto.
    + simpl. unfold NilZero.string_of_uint. by destruct (Pos.to_uint p).
    + by apply uint_nonempty.
    + rewrite bool_decide_eq_false_2 by done. unfold decimal.
      by rewrite H0, Unsigned.of_to.
  - pose proof (Unsigned.to_uint_nonnil p) as Hnil.
    pose proof (uint_digits (Pos.to_uint p)) as (Hd & _ & H0).
    exists [45], (bytes (NilEmpty.string_of_uint (Pos.to_uint p))).
    split_and!; auto.
    + simpl. unfold NilZero.string_of_uint. by destruct (Pos.to_uint p).
    + by apply uint_nonempty.
    + rewrite bool_decide_eq_true_2 by done. unfold decimal.
      by rewrite H0, Unsigned.of_to.
Qed.

(** X13: [parseUnix] gives a time without error exactly on the decimal
    integers of 64 bits, the time being that second of the Unix epoch;
    on any other string it gives the zero time and an error.  The time
    it returns is thus not zero exactly for such an integer other than
    -62135596800, which is what [fetchEvents] tests. *)
Theorem parseUnix_result (s : string) :
  ((exists n, decimal_int64 s n /\ parseUnix s = (time_Unix n, None))
   \/ ((forall n, ~ decimal_int64 s n) /\ exists err, parseUnix s = (Time_zero, Some err)))
  /\ (IsZero (parseUnix s).1 = false <-> exists n, decimal_int64 s n /\ n <> zero_instant).
Proof.
  unfold parseUnix. destruct (strconv_ParseInt s) as [n [err|]] eqn:Hp.
  - assert (forall m, ~ decimal_int64 s m) as Hno.
    { intros m Hm. apply ParseInt_ok in Hm. congruence. }
    split; [right; split; [done|by exists err]|].
    split; [done|]. intros (m & Hm & _). by apply Hno in Hm.
  - split; [left; exists n; split; [by apply ParseInt_ok|done]|].
    simpl. rewrite (IsZero_Unix n (ParseInt_range _ _ Hp)). split.
    + intros Hz. apply Z.eqb_neq in Hz. exists n. split; [by apply ParseInt_ok|done].
    + intros (m & Hm & Hz). apply ParseInt_ok in Hm. apply Z.eqb_neq. congruence.
Qed.

(** X14: a second of the Unix epoch written in decimal, as [%d] writes
    it, is read back by [parseUnix] as that second. *)
Theorem parseUnix_reads_printed (n : Z) (Hn : in_int64 n) :
  strconv_ParseInt (fmt_d n) = (n, None)
  /\ parseUnix (fmt_d n) = (time_Unix n, None).
Proof.
  assert (strconv_ParseInt (fmt_d n) = (n, None)) as Hp
    by (by apply ParseInt_ok, decimal_int64_fmt_d).
  split; [done|]. unfold parseUnix. by rewrite Hp.
Qed.

(** X15: the size of a push event is printed as it came: for every
    64-bit [n], the payload [{"size": n}] is rendered as
    "Pushed n commit(s) to" and the repository. *)
Theorem push_size_printed (repo : string) (n : Z) (Hn : in_int64 n) :
  formatEvent (push_of_size repo n)
  = ("Pushed " +:+ fmt_d n +:+ " commit(s) to " +:+ repo, true).
Proof.
  assert (strconv_ParseInt (fmt_d n) = (n, None)) as Hp
    by (by apply ParseInt_ok, decimal_int64_fmt_d).
  unfold formatEvent, push_of_size. simpl.
  unfold mbind, option_bind, into_int. by rewrite Hp.
Qed.

(** ** Case of ASCII text *)

Lemma of_bytes_bytes s : of_bytes (bytes s) = s.
Proof.
  unfold bytes, of_bytes. rewrite <- list_fmap_compose.
  rewrite (list_fmap_ext _ id (list_ascii_of_string s)).
  - rewrite list_fmap_id. apply string_of_list_ascii_of_string.
  - intros i a _. unfold compose, char_of, byte_of.
    rewrite N2Z.id. apply ascii_N_embedding.
Qed.

Lemma ascii_range l : isASCII l = true -> Forall (fun c => 0 <= c) l ->
  Forall (fun c => 0 <= c < 256) l.
Proof.
  intros Ha Hp. induction Hp as [|c l Hc _ IH]; [done|].
  simpl in Ha. apply andb_prop in Ha as [Hlt Ha]. apply Z.ltb_lt in Hlt.
  unfold utf8.RuneSelf in Hlt. constructor; [lia|by apply IH].
Qed.

Lemma lower_ascii l : isASCII l = true -> Forall (fun c => 0 <= c) l ->
  isASCII (lower_byte <$> l) = true /\ Forall (fun c => 0 <= c) (lower_byte <$> l).
Proof.
  intros Ha Hp. induction Hp as [|c l Hc _ IH]; [done|].
  simpl in Ha. apply andb_prop in Ha as [Hlt Ha]. apply Z.ltb_lt in Hlt.
  unfold utf8.RuneSelf in Hlt. destruct (IH Ha) as [IH1 IH2].
  rewrite fmap_cons. simpl. rewrite IH1.
  assert (0 <= lower_byte c < 128) as Hl
    by (unfold lower_byte, utf8.in_range; case_match; lia).
  split; [|constructor; [lia|done]].
  apply andb_true_intro. split; [|done]. apply Z.ltb_lt. unfold utf8.RuneSelf. lia.
Qed.

Lemma upper_lower_byte c :
  upper_byte (upper_byte c) = upper_byte c
  /\ lower_byte (lower_byte c) = lower_byte c
  /\ upper_byte (lower_byte c) = upper_byte c.
Proof.
  unfold upper_byte, lower_byte, utf8.in_range. split_and!; repeat case_match; lia.
Qed.

(** [strings.ToLower] on ASCII text is the loop over its bytes. *)
Lemma ToLower_ascii s :
  isASCII (bytes s) = true -> strings_ToLower s = of_bytes (lower_byte <$> bytes s).
Proof. intros Ha. unfold strings_ToLower. simpl. by rewrite Ha. Qed.

Lemma title_bytes_ascii l : isASCII l = true -> Forall (fun c => 0 <= c) l ->
  isASCII (title_bytes l) = true /\ Forall (fun c => 0 <= c) (title_bytes l)
  /\ length (title_bytes l) = length l.
Proof.
  intros Ha Hp. destruct l as [|c rest]; [done|]. simpl.
  simpl in Ha. apply andb_prop in Ha as [Hlt Ha]. apply Z.ltb_lt in Hlt.
  unfold utf8.RuneSelf in Hlt. inversion Hp as [|? ? Hc Hp']; subst.
  destruct (lower_ascii rest Ha Hp') as [Hl1 Hl2]. rewrite Hl1.
  assert (0 <= upper_byte c < 128) as Hu
    by (unfold upper_byte, utf8.in_range; case_match; lia).
  split_and!.
  - apply andb_true_intro. split; [|done]. apply Z.ltb_lt. unfold utf8.RuneSelf. lia.
  - constructor; [lia|done].
  - by rewrite length_fmap.
Qed.

Lemma titleCase_title_bytes s :
  isASCII (bytes s) = true -> titleCase s = of_bytes (title_bytes (bytes s)).
Proof. intros Ha. by destruct (titleCase_ascii s Ha) as [-> _]. Qed.

Lemma title_bytes_twice l : title_bytes (title_bytes l) = title_bytes l.
Proof.
  destruct l as [|c rest]; [done|]. simpl.
  rewrite (proj1 (upper_lower_byte c)). f_equal. rewrite <- list_fmap_compose.
  apply list_fmap_ext. intros _ x _. apply upper_lower_byte.
Qed.

Lemma title_bytes_lower l : title_bytes (lower_byte <$> l) = title_bytes l.
Proof.
  destruct l as [|c rest]; [done|]. rewrite fmap_cons. simpl.
  rewrite (proj2 (proj2 (upper_lower_byte c))). f_equal. rewrite <- list_fmap_compose.
  apply list_fmap_ext. intros _ x _. apply upper_lower_byte.
Qed.

(** X16: on ASCII text [titleCase] keeps the length, changes nothing
    when applied a second time, and gives the same result whether or
    not the text is put in lower case first, as [formatEvent] does with
    the action of an event. *)
Theorem titleCase_on_ascii (s : string) (Hs : isASCII (bytes s) = true) :
  String.length (titleCase s) = String.length s
  /\ titleCase (titleCase s) = titleCase s
  /\ titleCase (strings_ToLower s) = titleCase s.
Proof.
  pose proof (bytes_nonneg s) as Hp.
  pose proof (titleCase_title_bytes s Hs) as Ht.
  destruct (title_bytes_ascii (bytes s) Hs Hp) as (Ha' & Hp' & Hlen).
  destruct (lower_ascii (bytes s) Hs Hp) as [Hal Hpl].
  split_and!.
  - by rewrite Ht, of_bytes_length, Hlen, bytes_length.
  - rewrite Ht.
    assert (bytes (of_bytes (title_bytes (bytes s))) = title_bytes (bytes s)) as Hb
      by (by apply bytes_of_bytes, ascii_range).
    rewrite titleCase_title_bytes by (by rewrite Hb).
    by rewrite Hb, title_bytes_twice.
  - rewrite (ToLower_ascii s Hs).
    assert (bytes (of_bytes (lower_byte <$> bytes s)) = lower_byte <$> bytes s) as Hb
      by (by apply bytes_of_bytes, ascii_range).
    rewrite titleCase_title_bytes by (by rewrite Hb).
    by rewrite Hb, title_bytes_lower, Ht.
Qed.

(** X17: a watch event is rendered as "Starred" exactly when its action
    spells "started" whatever the case of its letters; any other action
    gives "Watch event on". *)
Theorem watch_started (repo action : string) (Ha : isASCII (bytes action) = true) :
  formatEvent (watch_with_action repo action)
  = (if bool_decide (lower_byte <$> bytes action = bytes "started")
     then "Starred " +:+ repo else "Watch event on " +:+ repo, true).
Proof.
  pose proof (bytes_nonneg action) as Hp.
  destruct (lower_ascii (bytes action) Ha Hp) as [Hal Hpl].
  unfold formatEvent, watch_with_action. simpl. rewrite (ToLower_ascii action Ha).
  destruct (String.eqb_spec (of_bytes (lower_byte <$> bytes action)) "started")
    as [Heq|Hne].
  - rewrite bool_decide_eq_true_2; [done|].
    apply (f_equal bytes) in Heq. by rewrite bytes_of_bytes in Heq by by apply ascii_range.
  - rewrite bool_decide_eq_false_2; [done|]. intros Heq. apply Hne. by rewrite Heq.
Qed.

(** X18: an issues or pull request event with an ASCII action, a
    64-bit number and any title is rendered with the action in title
    case, whatever the case of its letters in the payload, the number
    as it came and the title between U+201C and U+201D. *)
Theorem action_lines (repo action : string) (n : Z) (title : string)
    (Ha : isASCII (bytes action) = true) (Hn : in_int64 n) :
  formatEvent (issue_event repo action n title)
  = (of_bytes (title_bytes (bytes action)) +:+ " an issue #" +:+ fmt_d n +:+ " “"
       +:+ title +:+ "” in " +:+ repo, true)
  /\ formatEvent (pr_event repo action n title)
     = (of_bytes (title_bytes (bytes action)) +:+ " a pull request #" +:+ fmt_d n +:+ " “"
          +:+ title +:+ "” in " +:+ repo, true).
Proof.
  assert (strconv_ParseInt (fmt_d n) = (n, None)) as Hp
    by (by apply ParseInt_ok, decimal_int64_fmt_d).
  pose proof (bytes_nonneg action) as Hpos.
  destruct (lower_ascii (bytes action) Ha Hpos) as [Hal Hpl].
  assert (titleCase (strings_ToLower action) = of_bytes (title_bytes (bytes action)))
    as Htitle.
  { rewrite (ToLower_ascii action Ha).
    assert (bytes (of_bytes (lower_byte <$> bytes action)) = lower_byte <$> bytes action)
      as Hb by (by apply bytes_of_bytes, ascii_range).
    rewrite titleCase_title_bytes by (by rewrite Hb).
    by rewrite Hb, title_bytes_lower. }
  unfold formatEvent, issue_event, pr_event, numbered_payload. simpl.
  unfold mbind, option_bind, into_int. rewrite Hp. simpl. by rewrite Htitle.
Qed.

End Program.

(** * The theorems at sample inputs *)

(** The reset header "1710000000" is annotated. *)
Lemma rate_limit_annotation_witness :
  StatusCode (rate_limited "1710000000") = 403
  /\ Header_Get (Header (rate_limited "1710000000")) "X-RateLimit-Remaining" = "0"
  /\ exists msg,
       fetchEvents epoch_seconds any_url (respond (rate_limited "1710000000")) (feed [])
         "octocat" = Failed msg
       /\ (exists rest, msg = rate_limit_msg +:+ rest)
       /\ (has_reset_annotation msg
           <-> exists sec, decimal_int64 "1710000000" sec /\ sec <> zero_instant)
       /\ (forall sec, decimal_int64 "1710000000" sec -> sec <> zero_instant ->
           msg = rate_limit_msg +:+ " (resets at " +:+ epoch_seconds (time_Unix sec) +:+ ")")
       /\ (~ has_reset_annotation msg -> msg = rate_limit_msg).
Proof.
  split; [reflexivity|]. split; [reflexivity|].
  apply (rate_limit_annotation epoch_seconds any_url (respond (rate_limited "1710000000"))
           (feed []) "octocat" (rate_limited "1710000000"));
    reflexivity.
Defined.

(** C2 as stated fails: the reset header "-62135596800" parses as a
    decimal integer, and yet, whatever the time zone, the message has no
    reset time. *)
Lemma zero_instant_reset_unannotated :
  StatusCode (rate_limited "-62135596800") = 403
  /\ Header_Get (Header (rate_limited "-62135596800")) "X-RateLimit-Remaining" = "0"
  /\ Header_Get (Header (rate_limited "-62135596800")) "X-RateLimit-Reset" = "-62135596800"
  /\ strconv_ParseInt "-62135596800" = (-62135596800, None)
  /\ decimal_int64 "-62135596800" (-62135596800)
  /\ ~ exists format decode msg,
         fetchEvents format any_url (respond (rate_limited "-62135596800")) decode "octocat"
         = Failed msg
         /\ has_reset_annotation msg.
Proof.
  split_and!; try reflexivity.
  { by apply ParseInt_ok. }
  intros (format & decode & msg & Hf & Ha).
  rewrite (fetchEvents_classify format any_url (respond (rate_limited "-62135596800"))
             decode "octocat" _ eq_refl eq_refl) in Hf.
  rewrite classify_rate_limited in Hf by reflexivity.
  change (Failed rate_limit_msg = Failed msg) in Hf.
  injection Hf as <-. by apply rate_limit_msg_plain in Ha.
Qed.

Lemma generic_api_error_witness :
  fetchEvents epoch_seconds any_url (respond server_error) (feed []) "octocat"
  = Failed "github api error: 500 Internal Server Error: é"
  /\ (String.length (string_take 512 (Body server_error)) <= 512)%nat
  /\ Body server_error
     = string_take 512 (Body server_error) +:+ string_drop 512 (Body server_error)
  /\ (String.length (strings_TrimSpace (string_take 512 (Body server_error)))
      <= String.length (string_take 512 (Body server_error)))%nat
  /\ (isASCII (bytes (string_take 512 (Body server_error))) = true ->
      strings_TrimSpace (string_take 512 (Body server_error))
      = of_bytes (trim_ascii (bytes (string_take 512 (Body server_error)))))
  /\ trimmed_of [0xE3; 0x80; 0x80; 0xC3; 0xA9; 0x20; 0xC2; 0xA0; 0x0A] [0xC3; 0xA9]
  /\ (forall t, trimmed_of [0xE3; 0x80; 0x80; 0xC3; 0xA9; 0x20; 0xC2; 0xA0; 0x0A] t ->
      t = [0xC3; 0xA9]).
Proof.
  apply (generic_api_error epoch_seconds any_url (respond server_error) (feed [])
           "octocat" server_error);
    [reflexivity | reflexivity | simpl; lia | discriminate | intros [H _]; discriminate H].
Defined.

(** C5 as stated fails: with any case tables, the line has the title
    between U+201C and U+201D, not between two bytes 34. *)
Lemma issue_line_not_ascii_quoted :
  ~ exists unicode_To,
      formatEvent unicode_To issue_opened
      = ("Opened an issue #42 " +:+ dquote +:+ "Bug" +:+ dquote +:+ " in alice/repo", true).
Proof. intros [unicode_To H]. vm_compute in H. discriminate H. Qed.

Lemma titleCase_cuts_first_character_witness :
  bytes "éa" = [0xC3; 0xA9; 0x61]
  /\ titleCase no_case_pairs "éa" = of_bytes [0xEF; 0xBF; 0xBD; 0xEF; 0xBF; 0xBD; 0x61]
  /\ titleCase no_case_pairs "éa" <> titleCase_by_character no_case_pairs "éa".
Proof. apply (titleCase_cuts_first_character no_case_pairs). reflexivity. Defined.

Lemma malformed_payload_skipped_witness :
  malformed push_size_string
  /\ formatEvent no_case_pairs push_size_string = ("", false)
  /\ (forall eventType limit before after count,
        selection_loop no_case_pairs eventType limit (before ++ push_size_string :: after)
          count
        = selection_loop no_case_pairs eventType limit (before ++ after) count)
  /\ (forall type_flag n_flag username before after,
        fetchEvents epoch_seconds any_url (respond (mkResponse 200 "200 OK" ∅ ""))
          (feed [push_size_string]) username
        = Events (before ++ push_size_string :: after) ->
        exit_code (main no_case_pairs epoch_seconds any_url
                     (respond (mkResponse 200 "200 OK" ∅ "")) (feed [push_size_string])
                     quote_plain [] type_flag n_flag [username]) = 0
        /\ stderr (main no_case_pairs epoch_seconds any_url
                     (respond (mkResponse 200 "200 OK" ∅ "")) (feed [push_size_string])
                     quote_plain [] type_flag n_flag [username]) = []).
Proof.
  assert (malformed push_size_string) as H by (left; split; reflexivity).
  split; [exact H|].
  apply (malformed_payload_skipped no_case_pairs epoch_seconds any_url
           (respond (mkResponse 200 "200 OK" ∅ "")) (feed [push_size_string])
           quote_plain [] push_size_string H).
Defined.

(** A feed of one malformed push event, asked for with [--type]. *)
Lemma quiet_runs_witness :
  fetchEvents epoch_seconds any_url (respond (mkResponse 200 "200 OK" ∅ ""))
    (feed [push_size_string]) "octocat" = Events [push_size_string]
  /\ main no_case_pairs epoch_seconds any_url (respond (mkResponse 200 "200 OK" ∅ ""))
       (feed [push_size_string]) quote_plain [] (Some "PushEvent") None ["octocat"]
     = mkOutcome ["No events of type " +:+ quote_plain "PushEvent" +:+ " found."] [] 0
  /\ NoDup ["No recent public activity."; "No printable events found.";
            "No events of type " +:+ quote_plain "PushEvent" +:+ " found."].
Proof.
  split; [reflexivity|].
  apply (quiet_runs no_case_pairs epoch_seconds any_url
           (respond (mkResponse 200 "200 OK" ∅ "")) (feed [push_size_string])
           quote_plain [] (Some "PushEvent") None "octocat" [push_size_string]).
  reflexivity.
Defined.

(** * The further properties at sample inputs *)

Lemma printed_grows_with_limit_witness :
  1 <= 2
  /\ printed no_case_pairs "" (clamp 1) sample_feed
     `prefix_of` printed no_case_pairs "" (clamp 2) sample_feed.
Proof.
  split; [lia|]. apply (printed_grows_with_limit no_case_pairs "" 1 2 sample_feed). lia.
Defined.

Lemma printed_ignores_rest_witness :
  clamp 2 <= Z.of_nat (length (List.filter (qualifies no_case_pairs "")
                                 [test_push; test_watch]))
  /\ printed no_case_pairs "" (clamp 2) ([test_push; test_watch] ++ [fork_named])
     = printed no_case_pairs "" (clamp 2) [test_push; test_watch].
Proof.
  assert (clamp 2 <= Z.of_nat (length (List.filter (qualifies no_case_pairs "")
                                         [test_push; test_watch]))) as H
    by (by vm_compute).
  split; [exact H|].
  apply (printed_ignores_rest no_case_pairs "" 2 [test_push; test_watch] [fork_named] H).
Defined.

Lemma filter_is_prefilter_witness :
  "ForkEvent" <> ""
  /\ printed no_case_pairs "ForkEvent" (clamp (default 30 None)) sample_feed
     = printed no_case_pairs "" (clamp (default 30 None))
         (List.filter (has_type "ForkEvent") sample_feed).
Proof.
  split; [discriminate|].
  apply (filter_is_prefilter no_case_pairs "ForkEvent" None sample_feed). discriminate.
Defined.

Lemma unsupported_filter_witness :
  "GollumEvent" <> "" /\ ~ supported "GollumEvent"
  /\ fetchEvents epoch_seconds any_url (respond (mkResponse 200 "200 OK" ∅ ""))
       (feed sample_feed) "octocat" = Events sample_feed
  /\ sample_feed <> []
  /\ main no_case_pairs epoch_seconds any_url (respond (mkResponse 200 "200 OK" ∅ ""))
       (feed sample_feed) quote_plain [] (Some "GollumEvent") (Some 5) ["octocat"]
     = mkOutcome ["No events of type " +:+ quote_plain "GollumEvent" +:+ " found."] [] 0.
Proof.
  assert (~ supported "GollumEvent") as Hun.
  { intros H. apply supported_cases in H. intuition discriminate. }
  split; [discriminate|]. split; [exact Hun|]. split; [reflexivity|].
  split; [discriminate|].
  apply (unsupported_filter no_case_pairs epoch_seconds any_url
           (respond (mkResponse 200 "200 OK" ∅ "")) (feed sample_feed) quote_plain []
           "GollumEvent" (Some 5) "octocat" sample_feed);
    [discriminate | exact Hun | reflexivity | discriminate].
Defined.

Lemma failure_told_by_message_witness :
  fetchEvents epoch_seconds any_url (respond bad_gateway) (feed []) "octocat"
  = Failed "github api error: 502 Bad Gateway: bad gateway"
  /\ ("github api error: 502 Bad Gateway: bad gateway" = "user not found"
      <-> StatusCode bad_gateway = 404)
  /\ (String.prefix "rate limit exceeded" "github api error: 502 Bad Gateway: bad gateway"
      = true
      <-> StatusCode bad_gateway = 403
          /\ Header_Get (Header bad_gateway) "X-RateLimit-Remaining" = "0")
  /\ (String.prefix "github api error: " "github api error: 502 Bad Gateway: bad gateway"
      = true
      <-> ~ 200 <= StatusCode bad_gateway < 300 /\ StatusCode bad_gateway <> 404
          /\ ~ (StatusCode bad_gateway = 403
                /\ Header_Get (Header bad_gateway) "X-RateLimit-Remaining" = "0"))
  /\ (String.prefix "decode failed: " "github api error: 502 Bad Gateway: bad gateway"
      = true
      <-> 200 <= StatusCode bad_gateway < 300).
Proof.
  split; [reflexivity|].
  apply (failure_told_by_message epoch_seconds any_url (respond bad_gateway) (feed [])
           "octocat" bad_gateway);
    reflexivity.
Defined.

Lemma parseUnix_reads_printed_witness :
  in_int64 1710000000
  /\ strconv_ParseInt (fmt_d 1710000000) = (1710000000, None)
  /\ parseUnix (fmt_d 1710000000) = (time_Unix 1710000000, None).
Proof.
  assert (in_int64 1710000000) as H by (by vm_compute).
  split; [exact H|]. apply (parseUnix_reads_printed 1710000000 H).
Defined.

Lemma push_size_printed_witness :
  in_int64 (-7)
  /\ formatEvent no_case_pairs (push_of_size "alice/repo" (-7))
     = ("Pushed -7 commit(s) to alice/repo", true).
Proof.
  assert (in_int64 (-7)) as H by (by vm_compute).
  split; [exact H|]. apply (push_size_printed no_case_pairs "alice/repo" (-7) H).
Defined.

Lemma titleCase_on_ascii_witness :
  isASCII (bytes "rEOPENED") = true
  /\ String.length (titleCase no_case_pairs "rEOPENED") = String.length "rEOPENED"
  /\ titleCase no_case_pairs (titleCase no_case_pairs "rEOPENED")
     = titleCase no_case_pairs "rEOPENED"
  /\ titleCase no_case_pairs (strings_ToLower no_case_pairs "rEOPENED")
     = titleCase no_case_pairs "rEOPENED".
Proof.
  split; [reflexivity|]. apply (titleCase_on_ascii no_case_pairs "rEOPENED"). reflexivity.
Defined.

Lemma watch_started_witness :
  isASCII (bytes "STARTED") = true
  /\ formatEvent no_case_pairs (watch_with_action "alice/repo" "STARTED")
     = ("Starred alice/repo", true).
Proof.
  split; [reflexivity|].
  apply (watch_started no_case_pairs "alice/repo" "STARTED"). reflexivity.
Defined.

Lemma action_lines_witness :
  isASCII (bytes "REOPENED") = true /\ in_int64 42
  /\ formatEvent no_case_pairs (issue_event "alice/repo" "REOPENED" 42 "Bug")
     = ("Reopened an issue #42 “Bug” in alice/repo", true)
  /\ formatEvent no_case_pairs (pr_event "alice/repo" "REOPENED" 42 "Bug")
     = ("Reopened a pull request #42 “Bug” in alice/repo", true).
Proof.
  assert (in_int64 42) as H by (by vm_compute).
  split; [reflexivity|]. split; [exact H|].
  apply (action_lines no_case_pairs "alice/repo" "REOPENED" 42 "Bug" eq_refl H).
Defined.
